(** * ColorChain: the game engine of script.js, embedded and verified

    The development follows script.js function by function.  The global
    variables of the script become the fields of [Game]; every function that
    reads or writes them becomes a function on [Game].  DOM manipulation,
    audio, persistence and the leaderboard are rendering or collaborator
    effects with no feedback into the engine and are left out, with one
    exception: [selectedPath] holds tile elements and handleEnter looks a
    tile up by identity, so the model records which elements of the path
    have left the document (see [Selection]).

    Numbers.  The counters of the script (rows, columns, path lengths, turn
    counts, seconds) are small integers and are modelled in [Z].  The score is
    the one place where a non-integer constant (0.15) enters, so the score and
    [calculateScore] are modelled in IEEE-754 binary64, the number type of
    JavaScript, with Rocq's primitive floats. *)

From Stdlib Require Import ZArith QArith Qround Floats SpecFloat Lia.
From stdpp Require Import base tactics decidable option list numbers relations.

#[local] Set Warnings "-inexact-float,-clear-no-such-hyp".
#[local] Open Scope Z_scope.

(** ** Constants and cells *)

Definition ROWS : Z := 6.
Definition COLS : Z := 6.

Inductive Colour := red | blue | yellow | green | purple.

Definition COLOURS : list Colour := [red; blue; yellow; green; purple].

(** What a read of [board[r][c]] can produce: a colour name, [null] (written
    by a clear), or [undefined] (a read outside the array; the script never
    stores it). *)
Inductive Cell := Undef | Empty | Tile (c : Colour).

#[global] Instance Colour_eq_dec : EqDecision Colour.
Proof. solve_decision. Defined.

#[global] Instance Cell_eq_dec : EqDecision Cell.
Proof. solve_decision. Defined.

Abbreviation Board := (list (list Cell)).
Abbreviation Pos := (Z * Z)%type.
Abbreviation Dir := (Z * Z)%type.

(** ** Arrays of arrays indexed by JavaScript numbers *)

(** [l[i]]: [None] stands for [undefined]. *)
Definition zlookup {A} (l : list A) (i : Z) : option A :=
  if bool_decide (0 ≤ i) then l !! Z.to_nat i else None.

(** [g[r][c]], with [d] for [undefined].  (On a missing row JavaScript raises
    a TypeError instead; every board below has all its rows.) *)
Definition at2 {A} (d : A) (g : list (list A)) (r c : Z) : A :=
  default d (zlookup g r ≫= λ row, zlookup row c).

(** [g[r][c] = v].  Inside the array this is the in-place store; outside it
    the model leaves [g] unchanged (JavaScript would grow the row or raise),
    and no function below stores outside a 6 by 6 array. *)
Definition set2 {A} (g : list (list A)) (r c : Z) (v : A) : list (list A) :=
  if bool_decide (0 ≤ r ∧ 0 ≤ c) then alter (<[Z.to_nat c := v]>) (Z.to_nat r) g
  else g.

Definition cell_at (b : Board) (r c : Z) : Cell := at2 Undef b r c.

(** The cells in the order of [for r { for c { ... } }]. *)
Definition all_cells : list Pos :=
  r ← seqZ 0 ROWS; c ← seqZ 0 COLS; [(r, c)].

(** ** Scoring (calculateScore) *)

(** The integer [z] as a binary64 number (exact for [|z| < 2^53]). *)
Definition Z2F (z : Z) : float := SF2Prim (binary_normalize prec emax z 0 false).

(** [Math.round]: the integral number closest to [x], the one closer to
    +infinity on a tie; zeros, infinities and NaN are returned as they are,
    and a result of zero keeps the sign of [x]. *)
Definition Math_round (x : float) : float :=
  match Prim2SF x with
  | S754_finite s m e =>
      if bool_decide (0 ≤ e) then x
      else
        let twice := 2 * (if s then Z.neg m else Z.pos m) in
        let n := Z.shiftr (twice + Z.shiftl 1 (- e)) (1 - e) in
        if bool_decide (n = 0) then (if s then (-0)%float else 0%float) else Z2F n
  | _ => x
  end.

Definition calculateScore (length turns multiplier : float) : float :=
  let base := (length * length * 10)%float in
  let turnBonus := (base * 0.15 * turns)%float in
  Math_round ((base + turnBonus) * multiplier)%float.

(** The score formula of the specification in exact arithmetic:
    [(l*l*10 + l*l*10*(15/100)*t) * m], rounded to the nearest integer with
    ties upwards. *)
Definition score_exact (l t m : Z) : Z :=
  let base := inject_Z (l * l * 10) in
  let turnBonus := (base * (15 # 100) * inject_Z t)%Q in
  Qfloor ((base + turnBonus) * inject_Z m + (1 # 2))%Q.

(** ** Move availability (hasAvailableMoves) *)

Definition dirs : list Dir := [(1, 0); (-1, 0); (0, 1); (0, -1)].

(** One pass of [for (const [dr, dc] of dirs)] in the flood fill. *)
Definition visit_neighbour (b : Board) (colour : Cell) (rr cc : Z)
    (st : list (list bool) * list Pos) (d : Dir) : list (list bool) * list Pos :=
  let '(visited, queue) := st in
  let nr := rr + d.1 in
  let nc := cc + d.2 in
  if bool_decide (nr < 0 ∨ ROWS ≤ nr ∨ nc < 0 ∨ COLS ≤ nc) then st
  else if at2 false visited nr nc then st
  else if bool_decide (cell_at b nr nc = colour)
       then (set2 visited nr nc true, queue ++ [(nr, nc)])
       else st.

(** [while (queue.length > 0)]: one unit of [fuel] per dequeued cell; [None]
    when the fuel runs out before the queue is empty. *)
Fixpoint flood (fuel : nat) (b : Board) (colour : Cell)
    (visited : list (list bool)) (queue : list Pos) (count : Z)
    : option (list (list bool) * Z) :=
  match queue with
  | [] => Some (visited, count)
  | (rr, cc) :: rest =>
      match fuel with
      | O => None
      | S fuel' =>
          let '(visited', queue') :=
            fold_left (visit_neighbour b colour rr cc) dirs (visited, rest) in
          flood fuel' b colour visited' queue' (count + 1)
      end
  end.

(** The two [for] loops over the cells, with the early [return true]. *)
Fixpoint scan (fuel : nat) (b : Board) (visited : list (list bool))
    (cells : list Pos) : option bool :=
  match cells with
  | [] => Some false
  | (r, c) :: cells' =>
      if at2 false visited r c then scan fuel b visited cells'
      else
        match flood fuel b (cell_at b r c) (set2 visited r c true) [(r, c)] 0 with
        | None => None
        | Some (visited', count) =>
            if bool_decide (3 ≤ count) then Some true
            else scan fuel b visited' cells'
        end
  end.

Definition hasAvailableMoves (b : Board) : option bool :=
  scan (Z.to_nat (ROWS * COLS)) b
       (replicate (Z.to_nat ROWS) (replicate (Z.to_nat COLS) false)) all_cells.

(** ** Gravity (collapseBoard) *)

(** The body of [for (let r = ROWS - 1; r >= 0; r--)] for column [c]; the
    state is the board and the write pointer. *)
Definition collapse_step (c : Z) (st : Board * Z) (r : Z) : Board * Z :=
  let '(b, pointer) := st in
  if bool_decide (cell_at b r c ≠ Empty) then
    (if bool_decide (r ≠ pointer)
     then set2 (set2 b pointer c (cell_at b r c)) r c Empty
     else b,
     pointer - 1)
  else st.

Definition collapse_column (b : Board) (c : Z) : Board :=
  (fold_left (collapse_step c) (reverse (seqZ 0 ROWS)) (b, ROWS - 1)).1.

Definition collapseBoard (b : Board) : Board :=
  fold_left collapse_column (seqZ 0 COLS) b.

(** ** Random colours (initBoard, fillBoard, shuffleBoard) *)

(** [Math.random] is an oracle: [src k] is the value of the [k]-th call, a
    number in [0, 1) (see [random_source]).  Every function that draws
    threads the number of calls made so far.  The product with the number
    of colours is taken exactly; the script takes it in binary64, which for
    some draws (0.6 is one) gives the next colour of the palette instead.
    For the draws 0 and 1/5 of the sources used below the two agree; the
    statements below are about how many draws are made and about the result
    being a colour of the palette, not about which colour a draw gives. *)
Definition random_colour (src : nat → Q) (k : nat) : Cell :=
  let i := Qfloor (src k * inject_Z (Z.of_nat (length COLOURS))) in
  from_option Tile Undef (zlookup COLOURS i).

Definition initBoard (src : nat → Q) (k : nat) : Board * nat :=
  fold_left
    (λ '(b, k) (_ : Z),
       let '(row, k') :=
         fold_left (λ '(row, k) (_ : Z), (row ++ [random_colour src k], S k))
                   (seqZ 0 COLS) ([], k) in
       (b ++ [row], k'))
    (seqZ 0 ROWS) ([], k).

Definition fillBoard (src : nat → Q) (k : nat) (b : Board) : Board * nat :=
  fold_left
    (λ '(b, k) '(r, c),
       if bool_decide (cell_at b r c = Empty)
       then (set2 b r c (random_colour src k), S k)
       else (b, k))
    all_cells (b, k).

(** The two [for] loops inside the [do] body of shuffleBoard. *)
Definition regenerate (src : nat → Q) (k : nat) (b : Board) : Board * nat :=
  fold_left (λ '(b, k) '(r, c), (set2 b r c (random_colour src k), S k))
            all_cells (b, k).

(** The [do ... while (!hasAvailableMoves())] loop; one unit of [fuel] per
    iteration.  The result carries the final value of [attempts]. *)
Fixpoint shuffle_loop (fuel : nat) (src : nat → Q) (k : nat) (b : Board)
    (attempts : Z) : option (Board * Z * nat) :=
  match fuel with
  | O => None
  | S fuel' =>
      let '(b1, k1) := regenerate src k b in
      let attempts1 := attempts + 1 in
      if bool_decide (50 < attempts1) then Some (b1, attempts1, k1)
      else
        match hasAvailableMoves b1 with
        | None => None
        | Some true => Some (b1, attempts1, k1)
        | Some false => shuffle_loop fuel' src k1 b1 attempts1
        end
  end.

Definition shuffleBoard (fuel : nat) (src : nat → Q) (k : nat) (b : Board)
    : option (Board * Z * nat) :=
  shuffle_loop fuel src k b 0.

(** ** The globals of the script *)

(** The variables of a drag.  [lastRow] and [lastCol] start as [null] in the
    script and are assigned by startSelection before they are ever read, so
    they are plain numbers here.  A direction is the string [`${dx},${dy}`],
    which determines and is determined by the pair [(dx, dy)].

    [selectedPath] is an array of tile elements, and [indexOf] compares
    elements, not positions.  Tile elements are created in one place only,
    [renderBoard(true)], which initBoard calls: it empties the board element
    and appends 36 new tiles.  A listener only ever delivers a tile of the
    current document, and while the document is not rebuilt there is one tile
    per position.  So an element of the path is given by its position
    ([dataset.row], [dataset.col]) and by whether it still belongs to the
    document; elements enter the path at its end only, hence the elements
    that no longer belong to the document are the first [detached] entries of
    the path.  They keep their [dataset], which updateTurnCount and
    finishSelection read, but they are never equal to a delivered tile. *)
Record Selection := {
  isDrawing : bool;
  selectedPath : list Pos;
  detached : nat;
  currentColour : Cell;
  lastRow : Z;
  lastCol : Z;
  lastDirection : option Dir;
  turnCount : Z }.

(** The variables of a round, and what the engine needs to know of the
    timers and of the page: whether the one-second interval is running,
    whether the board element receives pointer events, how many
    collapse-and-fill timeouts are scheduled, whether a chain decay timeout
    is scheduled. *)
Record Round := {
  score : float;
  chainCount : Z;
  maxChain : Z;
  timeLeft : Z;
  maxTimeForBar : Z;
  bestScore : float;
  bestChainValue : Z;
  timerRunning : bool;
  pointerEvents : bool;
  pendingRefills : nat;
  chainTimeout : bool }.

Record Game := { board : Board; sel : Selection; round : Round }.

(** ** Path selection (startSelection, handleEnter, updateTurnCount) *)

Definition startSelection (g : Game) (tile : Pos) : Game :=
  if bool_decide (timeLeft (round g) ≤ 0) then g
  else
    let '(r, c) := tile in
    {| board := board g;
       sel := {| isDrawing := true;
                 selectedPath := [tile];
                 detached := 0;
                 currentColour := cell_at (board g) r c;
                 lastRow := r;
                 lastCol := c;
                 lastDirection := None;
                 turnCount := 0 |};
       round := round g |}.

(** [l.indexOf(tile)] on tiles of one document, each given by its position:
    the first index of [tile], or [-1]. *)
Fixpoint indexOf (l : list Pos) (tile : Pos) : Z :=
  match l with
  | [] => -1
  | x :: l' =>
      if bool_decide (x = tile) then 0
      else let i := indexOf l' tile in if bool_decide (i < 0) then -1 else i + 1
  end.

(** [selectedPath.indexOf(tile)] for a tile of the current document, on a
    path whose first [detached] entries are elements of an earlier document:
    the first index at or after [detached] that holds the position of
    [tile], or [-1]. *)
Definition path_indexOf (detached : nat) (path : list Pos) (tile : Pos) : Z :=
  let i := indexOf (drop detached path) tile in
  if bool_decide (i < 0) then -1 else Z.of_nat detached + i.

(** [path[i]]; the default stands for a read past the end, on which the
    script would fail ([undefined.dataset]). *)
Definition tile_at (path : list Pos) (i : nat) : Pos := default (0, 0) (path !! i).

(** The body of [for (let i = 1; i < selectedPath.length; i++)] in
    updateTurnCount; the state is [(turnCount, lastDirection)]. *)
Definition turn_step (path : list Pos) (st : Z * option Dir) (i : nat)
    : Z * option Dir :=
  let '(turns, lastDir) := st in
  let prev := tile_at path (i - 1) in
  let curr := tile_at path i in
  let dir := (curr.1 - prev.1, curr.2 - prev.2) in
  (if bool_decide (lastDir ≠ None ∧ Some dir ≠ lastDir) then turns + 1 else turns,
   Some dir).

Definition updateTurnCount (g : Game) : Game :=
  let s := sel g in
  let path := selectedPath s in
  let '(turns, lastDir) :=
    fold_left (turn_step path) (seq 1 (length path - 1)) (0, None) in
  let lastTile := tile_at path (length path - 1) in
  {| board := board g;
     sel := {| isDrawing := isDrawing s;
               selectedPath := path;
               detached := detached s;
               currentColour := currentColour s;
               lastRow := lastTile.1;
               lastCol := lastTile.2;
               lastDirection := lastDir;
               turnCount := turns |};
     round := round g |}.

(** [selectedPath.pop()]. *)
Definition pop_path (g : Game) : Game :=
  let s := sel g in
  {| board := board g;
     sel := {| isDrawing := isDrawing s;
               selectedPath := removelast (selectedPath s);
               detached := detached s;
               currentColour := currentColour s;
               lastRow := lastRow s;
               lastCol := lastCol s;
               lastDirection := lastDirection s;
               turnCount := turnCount s |};
     round := round g |}.

Definition handleEnter (g : Game) (tile : Pos) : Game :=
  let s := sel g in
  if negb (isDrawing s) then g
  else
    let '(r, c) := tile in
    let colour := cell_at (board g) r c in
    if bool_decide (colour ≠ currentColour s) then g
    else
      let idx := path_indexOf (detached s) (selectedPath s) tile in
      if bool_decide (0 ≤ idx) then
        if bool_decide (idx = Z.of_nat (length (selectedPath s)) - 2)
        then updateTurnCount (pop_path g)
        else g
      else
        let dr := Z.abs (r - lastRow s) in
        let dc := Z.abs (c - lastCol s) in
        if bool_decide (dr + dc ≠ 1) then g
        else
          let dir := (r - lastRow s, c - lastCol s) in
          {| board := board g;
             sel := {| isDrawing := isDrawing s;
                       selectedPath := selectedPath s ++ [tile];
                       detached := detached s;
                       currentColour := currentColour s;
                       lastRow := r;
                       lastCol := c;
                       lastDirection := Some dir;
                       turnCount :=
                         if bool_decide (lastDirection s ≠ None
                                         ∧ Some dir ≠ lastDirection s)
                         then turnCount s + 1 else turnCount s |};
             round := round g |}.

(** ** Commit or abandon (finishSelection) *)

(** The path variables after [// reset path variables]; [lastRow] and
    [lastCol] are not reset by the script. *)
Definition reset_selection (s : Selection) : Selection :=
  {| isDrawing := false;
     selectedPath := [];
     detached := 0;
     currentColour := Empty;
     lastRow := lastRow s;
     lastCol := lastCol s;
     lastDirection := None;
     turnCount := 0 |}.

(** [selectedPath.forEach(tile => { ... board[rr][cc] = null; ... })]. *)
Definition clear_cells (b : Board) (path : list Pos) : Board :=
  fold_left (λ b '(rr, cc), set2 b rr cc Empty) path b.

(** The synchronous part of the commit branch: everything up to the
    [setTimeout] that schedules collapse and fill. *)
Definition commit (g : Game) : Game :=
  let s := sel g in
  let rd := round g in
  let pathLength := Z.of_nat (length (selectedPath s)) in
  let gained :=
    calculateScore (Z2F pathLength) (Z2F (turnCount s)) (Z2F (chainCount rd)) in
  let score1 := (score rd + gained)%float in
  let timeLeft1 :=
    if bool_decide (5 ≤ pathLength) then timeLeft rd + (pathLength - 4)
    else timeLeft rd in
  let maxTimeForBar1 :=
    if bool_decide (5 ≤ pathLength ∧ maxTimeForBar rd < timeLeft1) then timeLeft1
    else maxTimeForBar rd in
  let maxChain1 :=
    if bool_decide (maxChain rd < pathLength) then pathLength else maxChain rd in
  {| board := clear_cells (board g) (selectedPath s);
     sel := s;
     round := {| score := score1;
                 chainCount := chainCount rd;
                 maxChain := maxChain1;
                 timeLeft := timeLeft1;
                 maxTimeForBar := maxTimeForBar1;
                 bestScore := if (bestScore rd <? score1)%float then score1
                              else bestScore rd;
                 bestChainValue := if bool_decide (bestChainValue rd < maxChain1)
                                   then maxChain1 else bestChainValue rd;
                 timerRunning := timerRunning rd;
                 pointerEvents := pointerEvents rd;
                 pendingRefills := S (pendingRefills rd);
                 chainTimeout := chainTimeout rd |} |}.

Definition finishSelection (g : Game) : Game :=
  if negb (isDrawing (sel g)) then g
  else
    let g1 :=
      if bool_decide (3 ≤ Z.of_nat (length (selectedPath (sel g)))) then commit g
      else g in
    {| board := board g1; sel := reset_selection (sel g1); round := round g1 |}.

(** ** Round control (startGame, its timer callback, endGame) *)

Definition endGame (g : Game) : Game :=
  let rd := round g in
  {| board := board g;
     sel := sel g;
     round := {| score := score rd;
                 chainCount := chainCount rd;
                 maxChain := maxChain rd;
                 timeLeft := timeLeft rd;
                 maxTimeForBar := maxTimeForBar rd;
                 bestScore := bestScore rd;
                 bestChainValue := bestChainValue rd;
                 timerRunning := false;
                 pointerEvents := false;
                 pendingRefills := pendingRefills rd;
                 chainTimeout := chainTimeout rd |} |}.

(** The callback of [setInterval(..., 1000)]; it runs only while the
    interval is set. *)
Definition tick (g : Game) : Game :=
  let rd := round g in
  if negb (timerRunning rd) then g
  else
    let t := timeLeft rd - 1 in
    let t := if bool_decide (t < 0) then 0 else t in
    let g1 :=
      {| board := board g;
         sel := sel g;
         round := {| score := score rd;
                     chainCount := chainCount rd;
                     maxChain := maxChain rd;
                     timeLeft := t;
                     maxTimeForBar := maxTimeForBar rd;
                     bestScore := bestScore rd;
                     bestChainValue := bestChainValue rd;
                     timerRunning := timerRunning rd;
                     pointerEvents := pointerEvents rd;
                     pendingRefills := pendingRefills rd;
                     chainTimeout := chainTimeout rd |} |} in
    if bool_decide (t ≤ 0) then endGame g1 else g1.

(** startGame resets the round variables and [turnCount], restarts the
    interval and builds a fresh board; the other path variables are left as
    they are.  initBoard ends with [renderBoard(true)], which replaces every
    tile element: the elements that [selectedPath] holds at that moment all
    leave the document. *)
Definition startGame (fuel : nat) (src : nat → Q) (k : nat) (g : Game)
    : option (Game * nat) :=
  let s := sel g in
  let rd := round g in
  let '(b, k1) := initBoard src k in
  has ← hasAvailableMoves b;
  '(b1, k2) ← (if has : bool then Some (b, k1)
               else '(b2, _, k2) ← shuffleBoard fuel src k1 b; Some (b2, k2));
  Some ({| board := b1;
           sel := {| isDrawing := isDrawing s;
                     selectedPath := selectedPath s;
                     detached := length (selectedPath s);
                     currentColour := currentColour s;
                     lastRow := lastRow s;
                     lastCol := lastCol s;
                     lastDirection := lastDirection s;
                     turnCount := 0 |};
           round := {| score := 0;
                       chainCount := 1;
                       maxChain := 0;
                       timeLeft := 60;
                       maxTimeForBar := 60;
                       bestScore := bestScore rd;
                       bestChainValue := bestChainValue rd;
                       timerRunning := true;
                       pointerEvents := true;
                       pendingRefills := pendingRefills rd;
                       chainTimeout := chainTimeout rd |} |}, k2).

(** ** Event listeners *)

(** Listeners on the board element run only while the element receives
    pointer events; the listeners for pointerup and pointercancel are on the
    document and always run.  The tile of an event is the tile element of
    the current document at the given position ([e.target.closest('.tile')],
    [document.elementFromPoint]). *)
Inductive Event :=
  | PointerDown (tile : Pos)
  | PointerMove (tile : Pos)
  | PointerUp
  | TouchStart (tile : Pos)
  | TouchMove (tile : Pos)
  | TouchEnd
  | TimerTick.

Definition on_board (g : Game) (handler : Game → Game) : Game :=
  if pointerEvents (round g) then handler g else g.

Definition pointerdown (g : Game) (tile : Pos) : Game :=
  if bool_decide (timeLeft (round g) ≤ 0) then g else startSelection g tile.

Definition pointermove (g : Game) (tile : Pos) : Game :=
  if negb (isDrawing (sel g)) then g else handleEnter g tile.

Definition handlePointerEnd (g : Game) : Game :=
  if negb (isDrawing (sel g)) then g else finishSelection g.

Definition touchstart (g : Game) (tile : Pos) : Game :=
  if bool_decide (timeLeft (round g) ≤ 0) then g else startSelection g tile.

Definition touchmove (g : Game) (tile : Pos) : Game :=
  if negb (isDrawing (sel g)) then g else handleEnter g tile.

Definition touchend (g : Game) : Game := finishSelection g.

Definition dispatch (g : Game) (e : Event) : Game :=
  match e with
  | PointerDown tile => on_board g (λ g, pointerdown g tile)
  | PointerMove tile => on_board g (λ g, pointermove g tile)
  | PointerUp => handlePointerEnd g
  | TouchStart tile => on_board g (λ g, touchstart g tile)
  | TouchMove tile => on_board g (λ g, touchmove g tile)
  | TouchEnd => on_board g touchend
  | TimerTick => tick g
  end.

(** ** Vocabulary of the specification *)

(** A position of the 6 by 6 grid. *)
Definition inb (p : Pos) : Prop := (0 ≤ p.1 < ROWS) ∧ (0 ≤ p.2 < COLS).

#[global] Instance inb_dec (p : Pos) : Decision (inb p).
Proof. unfold inb. apply _. Defined.

(** An array of ROWS rows of COLS entries. *)
Definition grid6 {A} (g : list (list A)) : Prop :=
  length g = Z.to_nat ROWS ∧ Forall (λ row, length row = Z.to_nat COLS) g.

Definition is_tile (v : Cell) : Prop := ∃ c, v = Tile c.

(** Every cell holds a colour of the palette. *)
Definition full_grid (b : Board) : Prop := grid6 b ∧ Forall (Forall is_tile) b.

(** Every cell holds a colour or is Empty. *)
Definition playable_grid (b : Board) : Prop :=
  grid6 b ∧ Forall (Forall (λ v, v ≠ Undef)) b.

(** Manhattan distance 1. *)
Definition adjacent (p q : Pos) : Prop :=
  Z.abs (p.1 - q.1) + Z.abs (p.2 - q.2) = 1.

(** Two neighbouring cells with the same content. *)
Definition linked (b : Board) (p q : Pos) : Prop :=
  inb p ∧ inb q ∧ adjacent p q ∧ cell_at b p.1 p.2 = cell_at b q.1 q.2.

(** 4-connected through cells of the same content. *)
Definition connected (b : Board) : Pos → Pos → Prop := rtc (linked b).

(** [l] lists distinct cells of one 4-connected same-colour component. *)
Definition in_one_component (b : Board) (l : list Pos) : Prop :=
  NoDup l ∧ Forall inb l ∧ ∀ p q, p ∈ l → q ∈ l → connected b p q.

(** The grid has a 4-connected same-colour component of size at least 3. *)
Definition has_component3 (b : Board) : Prop :=
  ∃ l, in_one_component b l ∧ (3 ≤ length l)%nat.

(** The visited array as a set of positions. *)
Definition marked (visited : list (list bool)) (p : Pos) : Prop :=
  at2 false visited p.1 p.2 = true.

(** A set of positions that contains, with a cell, its linked neighbours. *)
Definition closed_under_links (b : Board) (S : Pos → Prop) : Prop :=
  ∀ p q, S p → linked b p q → S q.

(** [p] lies in a component of size at least 3. *)
Definition in_big_component (b : Board) (p : Pos) : Prop :=
  ∃ l, in_one_component b l ∧ (3 ≤ length l)%nat ∧ p ∈ l.

(** Invariant of the flood fill started at [s] on top of the marked set
    [S0]: [done] are the cells already dequeued, [queue] those waiting. *)
Definition flood_inv (b : Board) (S0 : Pos → Prop) (s : Pos)
    (done : list Pos) (visited : list (list bool)) (queue : list Pos) : Prop :=
  grid6 visited
  ∧ NoDup (done ++ queue)
  ∧ (∀ p, marked visited p ↔ S0 p ∨ p ∈ done ++ queue)
  ∧ (∀ p, p ∈ done ++ queue → ¬ S0 p ∧ inb p ∧ connected b s p)
  ∧ (∀ p q, p ∈ done → linked b p q → marked visited q).

(** Invariant of the scan over the cells: the marked cells are closed under
    links and none of them lies in a component of size 3 or more. *)
Definition scan_inv (b : Board) (visited : list (list bool)) : Prop :=
  grid6 visited
  ∧ (∀ p, marked visited p → inb p)
  ∧ closed_under_links b (marked visited)
  ∧ (∀ p, marked visited p → ¬ in_big_component b p).

(** The grid with the colour [c] in every cell. *)
Definition uniform_grid (c : Colour) : Board :=
  replicate (Z.to_nat ROWS) (replicate (Z.to_nat COLS) (Tile c)).

(** The checkerboard with [c1] where [r + c] is even and [c2] elsewhere. *)
Definition checkerboard (c1 c2 : Colour) : Board :=
  (λ r, (λ c, if Z.even (r + c) then Tile c1 else Tile c2) <$> seqZ 0 COLS)
    <$> seqZ 0 ROWS.

(** Column [c] of the grid, from the top row to the bottom row. *)
Definition column (b : Board) (c : Z) : list Cell :=
  (λ r, cell_at b r c) <$> seqZ 0 ROWS.

(** A column after gravity: as many Empty cells as it had, on top of its
    non-empty cells in their order. *)
Definition compact (col : list Cell) : list Cell :=
  replicate (length (filter (λ v, v = Empty) col)) Empty
  ++ filter (λ v, v ≠ Empty) col.

(** Invariant of the downward scan of column [c] of [b0] once the rows
    [r0 .. ROWS - 1] have been handled. *)
Definition collapse_inv (b0 : Board) (c r0 : Z) (st : Board * Z) : Prop :=
  let '(b, pointer) := st in
  grid6 b
  ∧ (∀ r c', c' ≠ c → cell_at b r c' = cell_at b0 r c')
  ∧ (∀ r, r < r0 → cell_at b r c = cell_at b0 r c)
  ∧ (r0 - 1 ≤ pointer < ROWS)
  ∧ (∀ r, r0 ≤ r ≤ pointer → cell_at b r c = Empty)
  ∧ (λ r, cell_at b r c) <$> seqZ (pointer + 1) (ROWS - 1 - pointer)
    = filter (λ v, v ≠ Empty) ((λ r, cell_at b0 r c) <$> seqZ r0 (ROWS - r0)).

(** Three cleared cells in the top row of a red and blue checkerboard: the
    board right after a commit, before collapse and fill. *)
Definition hole_grid : Board :=
  [ [Empty;     Empty;     Empty;     Tile blue; Tile red;  Tile blue];
    [Tile blue; Tile red;  Tile blue; Tile red;  Tile blue; Tile red];
    [Tile red;  Tile blue; Tile red;  Tile blue; Tile red;  Tile blue];
    [Tile blue; Tile red;  Tile blue; Tile red;  Tile blue; Tile red];
    [Tile red;  Tile blue; Tile red;  Tile blue; Tile red;  Tile blue];
    [Tile blue; Tile red;  Tile blue; Tile red;  Tile blue; Tile red] ].

(** What [Math.random] promises: every value lies in [0, 1). *)
Definition random_source (src : nat → Q) : Prop :=
  ∀ k, (0 <= src k)%Q ∧ (src k < 1)%Q.

(** A source of random numbers under which every regenerated board is the
    red and blue checkerboard: the draw for cell [(r, c)] is 0 when [r + c]
    is even and 1/5 otherwise. *)
Definition checker_src (k : nat) : Q :=
  if Nat.even (k `mod` 36 `div` 6 + k `mod` 6) then 0%Q else (1 # 5)%Q.

#[global] Instance spec_float_eq_dec : EqDecision spec_float.
Proof. solve_decision. Defined.

(** The ranges of the arguments of calculateScore in a game on the 6 by 6
    grid: a path has at most 36 cells and at most 34 turns; the chain
    multiplier is checked up to 64. *)
Definition score_box : list (Z * Z * Z) :=
  l ← seqZ 0 37; t ← seqZ 0 35; m ← seqZ 1 64; [(l, t, m)].

(** The binary64 result and the exact result of the formula coincide. *)
Definition score_agrees (ltm : Z * Z * Z) : Prop :=
  let '(l, t, m) := ltm in
  Prim2SF (calculateScore (Z2F l) (Z2F t) (Z2F m))
  = Prim2SF (Z2F (score_exact l t m)).

#[global] Instance score_agrees_dec (ltm : Z * Z * Z) : Decision (score_agrees ltm).
Proof. destruct ltm as [[l t] m]. unfold score_agrees. apply _. Defined.

(** The step from [p] to [q] as a direction vector. *)
Definition step_dir (p q : Pos) : Dir := (q.1 - p.1, q.2 - p.2).

(** The number of direction changes along [path] when the step that led to
    its first cell had direction [d]. *)
Fixpoint changes_after (d : Dir) (path : list Pos) : Z :=
  match path with
  | p :: ((q :: _) as rest) =>
      (if bool_decide (step_dir p q ≠ d) then 1 else 0)
      + changes_after (step_dir p q) rest
  | _ => 0
  end.

(** The number of direction changes along a path: the number of cells at
    which the step out differs from the step in. *)
Definition direction_changes (path : list Pos) : Z :=
  match path with
  | p :: ((q :: _) as rest) => changes_after (step_dir p q) rest
  | _ => 0
  end.

(** The direction of the last step of [path], after a step of direction [d]
    into its first cell. *)
Fixpoint final_dir (d : Dir) (path : list Pos) : Dir :=
  match path with
  | p :: ((q :: _) as rest) => final_dir (step_dir p q) rest
  | _ => d
  end.

Definition last_step (path : list Pos) : option Dir :=
  match path with
  | p :: ((q :: _) as rest) => Some (final_dir (step_dir p q) rest)
  | _ => None
  end.

(** The turn count and the last direction are what updateTurnCount would
    compute from the path, and [lastRow], [lastCol] is the last cell. *)
Definition turn_consistent (s : Selection) : Prop :=
  let path := selectedPath s in
  path ≠ []
  ∧ fold_left (turn_step path) (seq 1 (length path - 1)) (0, None)
    = (turnCount s, lastDirection s)
  ∧ tile_at path (length path - 1) = (lastRow s, lastCol s).

(** States reached by a drag: after a begin from any state, after a
    backtrack from any state, after every extend, after any event in between
    that leaves the path variables alone (a timer tick, a collapse and fill,
    a chain decay), and after a startGame that finds a path without a turn.
    A startGame that finds a path with a turn is not among them. *)
Inductive selection_trace : Game → Prop :=
  | trace_begin (g : Game) (tile : Pos) :
      0 < timeLeft (round g) → selection_trace (startSelection g tile)
  | trace_backtrack (g : Game) (tile : Pos) :
      (length (selectedPath (sel (handleEnter g tile)))
       < length (selectedPath (sel g)))%nat →
      selection_trace (handleEnter g tile)
  | trace_enter (g : Game) (tile : Pos) :
      selection_trace g → selection_trace (handleEnter g tile)
  | trace_other (g : Game) (b : Board) (rd : Round) :
      selection_trace g →
      selection_trace {| board := b; sel := sel g; round := rd |}
  | trace_restart (g : Game) (fuel : nat) (src : nat → Q) (k : nat)
      (g' : Game) (k' : nat) :
      selection_trace g →
      direction_changes (selectedPath (sel g)) = 0 →
      startGame fuel src k g = Some (g', k') →
      selection_trace g'.

(** The Selecting state of the specification: a drag is active, the path is
    simple and contiguous, it ends at [(lastRow, lastCol)], and its cells
    show the active colour. *)
Definition selecting (g : Game) : Prop :=
  let s := sel g in
  let path := selectedPath s in
  isDrawing s = true
  ∧ last path = Some (lastRow s, lastCol s)
  ∧ NoDup path
  ∧ (∀ i p q, path !! i = Some p → path !! S i = Some q → adjacent p q)
  ∧ (∀ p, p ∈ path → cell_at (board g) p.1 p.2 = currentColour s).

(** The variables right after startGame on board [b], with no best score
    stored. *)
Definition fresh_game (b : Board) : Game :=
  {| board := b;
     sel := {| isDrawing := false;
               selectedPath := [];
               detached := 0;
               currentColour := Empty;
               lastRow := 0;
               lastCol := 0;
               lastDirection := None;
               turnCount := 0 |};
     round := {| score := 0;
                 chainCount := 1;
                 maxChain := 0;
                 timeLeft := 60;
                 maxTimeForBar := 60;
                 bestScore := 0;
                 bestChainValue := 0;
                 timerRunning := true;
                 pointerEvents := true;
                 pendingRefills := 0;
                 chainTimeout := false |} |}.

(** A sequence of events, dispatched in order. *)
Definition run (g : Game) (events : list Event) : Game :=
  fold_left dispatch events g.

(** A drag over the first three cells of the top row of an all-red board,
    begun in the last second of the round. *)
Definition last_second_drag : Game :=
  let g := fresh_game (uniform_grid red) in
  let rd := round g in
  run {| board := board g;
         sel := sel g;
         round := {| score := score rd;
                     chainCount := chainCount rd;
                     maxChain := maxChain rd;
                     timeLeft := 1;
                     maxTimeForBar := maxTimeForBar rd;
                     bestScore := bestScore rd;
                     bestChainValue := bestChainValue rd;
                     timerRunning := timerRunning rd;
                     pointerEvents := pointerEvents rd;
                     pendingRefills := pendingRefills rd;
                     chainTimeout := chainTimeout rd |} |}
      [PointerDown (0, 0); PointerMove (0, 1); PointerMove (0, 2)].

(** ** The timeouts scheduled by a commit *)

(** The callback of the [setTimeout(..., 150)] of a commit: collapse, fill,
    reshuffle when the filled board has no move, then raise the chain
    multiplier and (re)start its decay timeout. *)
Definition refillTimeout (fuel : nat) (src : nat → Q) (k : nat) (g : Game)
    : option (Game * nat) :=
  let rd := round g in
  let '(b2, k2) := fillBoard src k (collapseBoard (board g)) in
  has ← hasAvailableMoves b2;
  '(b3, k3) ← (if has : bool then Some (b2, k2)
               else '(b, _, k') ← shuffleBoard fuel src k2 b2; Some (b, k'));
  Some ({| board := b3;
           sel := sel g;
           round := {| score := score rd;
                       chainCount := chainCount rd + 1;
                       maxChain := maxChain rd;
                       timeLeft := timeLeft rd;
                       maxTimeForBar := maxTimeForBar rd;
                       bestScore := bestScore rd;
                       bestChainValue := bestChainValue rd;
                       timerRunning := timerRunning rd;
                       pointerEvents := pointerEvents rd;
                       pendingRefills := Nat.pred (pendingRefills rd);
                       chainTimeout := true |} |}, k3).

(** The callback of the [setTimeout(..., 2000)] of the chain decay. *)
Definition chainDecay (g : Game) : Game :=
  let rd := round g in
  {| board := board g;
     sel := sel g;
     round := {| score := score rd;
                 chainCount := 1;
                 maxChain := maxChain rd;
                 timeLeft := timeLeft rd;
                 maxTimeForBar := maxTimeForBar rd;
                 bestScore := bestScore rd;
                 bestChainValue := bestChainValue rd;
                 timerRunning := timerRunning rd;
                 pointerEvents := pointerEvents rd;
                 pendingRefills := pendingRefills rd;
                 chainTimeout := false |} |}.

(** The cells of [cells] that are Empty on [b]. *)
Definition empty_cells (b : Board) (cells : list Pos) : list Pos :=
  filter (λ p, cell_at b p.1 p.2 = Empty) cells.

(** The number of Empty cells of the grid. *)
Definition count_empty (b : Board) : nat := length (empty_cells b all_cells).

(** The number of Empty cells of column [c]. *)
Definition column_empties (b : Board) (c : Z) : nat :=
  length (filter (λ v, v = Empty) (column b c)).

(** What the round variables always satisfy: the clock is not negative and
    not above the maximum of the time bar, the chain multiplier is at least
    1, and the longest chain of the round is not above the best chain. *)
Definition round_ok (rd : Round) : Prop :=
  0 ≤ timeLeft rd ≤ maxTimeForBar rd
  ∧ 1 ≤ chainCount rd
  ∧ 0 ≤ maxChain rd ≤ bestChainValue rd.

(** The directions in which the cell [p] has a neighbour on the grid with
    the same content. *)
Definition same_neighbours (b : Board) (p : Pos) : list Dir :=
  filter (λ d, inb (p.1 + d.1, p.2 + d.2)
               ∧ cell_at b (p.1 + d.1) (p.2 + d.2) = cell_at b p.1 p.2) dirs.

(** Some cell of the grid has two neighbours of its own content. *)
Definition has_triple (b : Board) : Prop :=
  Exists (λ p, (2 ≤ length (same_neighbours b p))%nat) all_cells.

(** The 6 by 6 board whose cell [(r, c)] holds the colour of draw number
    [6 r + c] counted from draw [k]. *)
Definition drawn_board (src : nat → Q) (k : nat) : Board :=
  (λ r, (λ c, random_colour src (Z.to_nat (6 * r + c) + k)) <$> seqZ 0 COLS)
    <$> seqZ 0 ROWS.


(** One step of the page: a listener or the interval callback runs, one of
    the two timeouts of a commit fires, or startGame runs (Play or Replay
    was clicked). *)
Inductive step : Game → Game → Prop :=
  | step_event (g : Game) (e : Event) : step g (dispatch g e)
  | step_refill (g : Game) (fuel : nat) (src : nat → Q) (k : nat)
      (g' : Game) (k' : nat) :
      refillTimeout fuel src k g = Some (g', k') → step g g'
  | step_decay (g : Game) : step g (chainDecay g)
  | step_start (g : Game) (fuel : nat) (src : nat → Q) (k : nat)
      (g' : Game) (k' : nat) :
      startGame fuel src k g = Some (g', k') → step g g'.





(** ** Arrays of arrays: reads after writes *)

Lemma zlookup_Some {A} (l : list A) (i : Z) (x : A) :
  zlookup l i = Some x ↔ 0 ≤ i ∧ l !! Z.to_nat i = Some x.
Proof.
  unfold zlookup. case_bool_decide; [tauto|]. split; [done|tauto].
Qed.

Lemma zlookup_in_range {A} (l : list A) (i : Z) :
  0 ≤ i < Z.of_nat (length l) → is_Some (zlookup l i).
Proof.
  intros Hi. unfold zlookup. rewrite bool_decide_eq_true_2 by lia.
  apply lookup_lt_is_Some. lia.
Qed.

Lemma at2_set2_eq {A} (d : A) (g : list (list A)) (r c : Z) (v : A) :
  grid6 g → inb (r, c) → at2 d (set2 g r c v) r c = v.
Proof.
  intros [Hlen Hrows] [Hr Hc]. simpl in Hr, Hc. unfold ROWS, COLS in *.
  unfold at2, set2, zlookup.
  rewrite !bool_decide_eq_true_2 by lia.
  destruct (lookup_lt_is_Some_2 g (Z.to_nat r)) as [row Hrow]; [lia|].
  rewrite list_lookup_alter_eq, Hrow. simpl.
  rewrite list_lookup_insert_eq; [done|].
  rewrite Forall_lookup in Hrows. rewrite (Hrows _ _ Hrow). lia.
Qed.

Lemma at2_set2_ne {A} (d : A) (g : list (list A)) (r c r' c' : Z) (v : A) :
  (r, c) ≠ (r', c') → at2 d (set2 g r c v) r' c' = at2 d g r' c'.
Proof.
  intros Hne. unfold at2, set2, zlookup.
  destruct (bool_decide (0 ≤ r ∧ 0 ≤ c)) eqn:Hrc; [|done].
  apply bool_decide_eq_true in Hrc.
  destruct (bool_decide (0 ≤ r')) eqn:Hr'; [|done].
  apply bool_decide_eq_true in Hr'.
  destruct (decide (r = r')) as [->|Hr].
  - rewrite list_lookup_alter_eq. destruct (g !! Z.to_nat r') as [row|]; [|done].
    simpl. destruct (bool_decide (0 ≤ c')) eqn:Hc'; [|done].
    apply bool_decide_eq_true in Hc'.
    rewrite list_lookup_insert_ne; [done|]. intros Heq.
    apply Hne. f_equal. lia.
  - rewrite list_lookup_alter_ne; [done|]. lia.
Qed.

Lemma grid6_set2 {A} (g : list (list A)) (r c : Z) (v : A) :
  grid6 g → grid6 (set2 g r c v).
Proof.
  intros [Hlen Hrows]. unfold set2. case_bool_decide; [|done]. split.
  - by rewrite length_alter.
  - rewrite Forall_lookup in Hrows. apply Forall_lookup. intros i row Hi.
    destruct (decide (i = Z.to_nat r)) as [->|Hne].
    + rewrite list_lookup_alter_eq in Hi.
      destruct (g !! Z.to_nat r) as [row0|] eqn:Hrow0; [|done].
      simpl in Hi. injection Hi as <-. rewrite length_insert. eauto.
    + rewrite list_lookup_alter_ne in Hi by done. eauto.
Qed.

Lemma grid6_blank :
  grid6 (replicate (Z.to_nat ROWS) (replicate (Z.to_nat COLS) false)).
Proof.
  split; [by rewrite length_replicate|].
  apply Forall_replicate. by rewrite length_replicate.
Qed.

Lemma at2_blank (r c : Z) :
  at2 false (replicate (Z.to_nat ROWS) (replicate (Z.to_nat COLS) false)) r c = false.
Proof.
  unfold at2, zlookup. destruct (bool_decide (0 ≤ r)); [|done].
  destruct (replicate _ _ !! Z.to_nat r) as [row|] eqn:Hrow; [|done].
  apply lookup_replicate in Hrow as [-> _]. cbn -[replicate Z.to_nat].
  destruct (bool_decide (0 ≤ c)); [|done].
  destruct (replicate (Z.to_nat COLS) false !! Z.to_nat c) as [v|] eqn:Hv; [|done].
  by apply lookup_replicate in Hv as [-> _].
Qed.

(** ** Positions and links *)

Lemma elem_of_all_cells (p : Pos) : p ∈ all_cells ↔ inb p.
Proof.
  unfold all_cells, inb. destruct p as [r c].
  rewrite list_elem_of_bind. split.
  - intros (r' & Hin & Hr'). apply list_elem_of_bind in Hin as (c' & Hin & Hc').
    apply list_elem_of_singleton in Hin. injection Hin as -> ->.
    apply elem_of_seqZ in Hr', Hc'. simpl. lia.
  - intros [Hr Hc]. simpl in Hr, Hc. exists r. split; [|apply elem_of_seqZ; lia].
    apply list_elem_of_bind. exists c. split; [|apply elem_of_seqZ; lia].
    by apply list_elem_of_singleton.
Qed.

Lemma linked_sym (b : Board) (p q : Pos) : linked b p q → linked b q p.
Proof.
  unfold linked, adjacent. intros (Hp & Hq & Hadj & Hcell).
  split; [done|]. split; [done|]. split; [lia|done].
Qed.

Lemma connected_sym (b : Board) (p q : Pos) : connected b p q → connected b q p.
Proof.
  induction 1 as [|x y z Hxy _ IH]; [apply rtc_refl|].
  eapply rtc_r; [exact IH|]. by apply linked_sym.
Qed.

Lemma connected_same_cell (b : Board) (p q : Pos) :
  connected b p q → cell_at b p.1 p.2 = cell_at b q.1 q.2.
Proof.
  induction 1 as [|x y z (_ & _ & _ & Hxy) _ IH]; [done|]. by rewrite Hxy.
Qed.

Lemma closed_connected (b : Board) (S : Pos → Prop) (p q : Pos) :
  closed_under_links b S → S p → connected b p q → S q.
Proof.
  intros Hcl Hp Hpq. induction Hpq as [|x y z Hxy _ IH]; [done|].
  apply IH. by apply (Hcl x).
Qed.

Lemma adjacent_dirs (p q : Pos) :
  adjacent p q → ∃ d, d ∈ dirs ∧ q = (p.1 + d.1, p.2 + d.2).
Proof.
  unfold adjacent, dirs. destruct p as [r c], q as [r' c']. simpl. intros H.
  assert ((r' = r + 1 ∧ c' = c) ∨ (r' = r - 1 ∧ c' = c)
          ∨ (r' = r ∧ c' = c + 1) ∨ (r' = r ∧ c' = c - 1))
    as [[-> ->]|[[-> ->]|[[-> ->]|[-> ->]]]] by lia.
  - exists (1, 0). split; [by repeat constructor|]. simpl. f_equal; lia.
  - exists (-1, 0). split; [by repeat constructor|]. simpl. f_equal; lia.
  - exists (0, 1). split; [by repeat constructor|]. simpl. f_equal; lia.
  - exists (0, -1). split; [by repeat constructor|]. simpl. f_equal; lia.
Qed.

Lemma dirs_adjacent (p : Pos) (d : Dir) :
  d ∈ dirs → adjacent p (p.1 + d.1, p.2 + d.2).
Proof.
  unfold dirs, adjacent. intros Hd. simpl.
  repeat (apply elem_of_cons in Hd as [->|Hd]; [simpl; lia|]).
  by apply elem_of_nil in Hd.
Qed.

Lemma NoDup_inb_length (l : list Pos) :
  NoDup l → Forall inb l → (length l ≤ Z.to_nat (ROWS * COLS))%nat.
Proof.
  intros Hnd Hin.
  change (Z.to_nat (ROWS * COLS)) with (length all_cells).
  apply submseteq_length, NoDup_submseteq; [done|].
  intros p Hp. apply elem_of_all_cells. by rewrite Forall_forall in Hin; apply Hin.
Qed.

(** ** The flood fill *)

#[local] Arguments visit_neighbour : simpl never.

Lemma marked_set2 (visited : list (list bool)) (r c : Z) (p : Pos) :
  grid6 visited → inb (r, c) →
  marked (set2 visited r c true) p ↔ p = (r, c) ∨ marked visited p.
Proof.
  intros Hg Hq. unfold marked. destruct (decide (p = (r, c))) as [->|Hne].
  - simpl. rewrite at2_set2_eq; [tauto|done..].
  - rewrite at2_set2_ne; [tauto|]. destruct p. simpl. congruence.
Qed.

Lemma visit_neighbour_inv (b : Board) (S0 : Pos → Prop) (s : Pos)
    (done : list Pos) (cur : Pos) (visited : list (list bool))
    (queue : list Pos) (d : Dir) (visited' : list (list bool))
    (queue' : list Pos) :
  d ∈ dirs →
  flood_inv b S0 s done visited (cur :: queue) →
  visit_neighbour b (cell_at b s.1 s.2) cur.1 cur.2 (visited, queue) d
    = (visited', queue') →
  flood_inv b S0 s done visited' (cur :: queue')
  ∧ (∀ p, marked visited p → marked visited' p)
  ∧ (∀ q, q = (cur.1 + d.1, cur.2 + d.2) → inb q →
          cell_at b q.1 q.2 = cell_at b s.1 s.2 → marked visited' q).
Proof.
  intros Hd (Hg & Hnd & Hmark & Hseen & Hdone) Hstep.
  unfold visit_neighbour in Hstep.
  set (q := (cur.1 + d.1, cur.2 + d.2)) in *.
  change (cur.1 + d.1) with q.1 in Hstep. change (cur.2 + d.2) with q.2 in Hstep.
  destruct (bool_decide (q.1 < 0 ∨ ROWS ≤ q.1 ∨ q.2 < 0 ∨ COLS ≤ q.2)) eqn:Hout.
  { injection Hstep as <- <-. apply bool_decide_eq_true in Hout.
    split; [done|]. split; [done|]. intros ? -> [? ?]. lia. }
  apply bool_decide_eq_false in Hout.
  assert (inb q) as Hq by (unfold inb; lia).
  destruct (at2 false visited q.1 q.2) eqn:Hvis.
  { injection Hstep as <- <-. split; [done|]. split; [done|]. by intros ? ->. }
  destruct (bool_decide (cell_at b q.1 q.2 = cell_at b s.1 s.2)) eqn:Hcol.
  2:{ injection Hstep as <- <-. apply bool_decide_eq_false in Hcol.
      split; [done|]. split; [done|]. by intros ? ->. }
  apply bool_decide_eq_true in Hcol. injection Hstep as <- <-.
  assert (¬ marked visited q) as Hnq by (unfold marked; congruence).
  assert (cur ∈ done ++ cur :: queue) as Hcur
    by (apply elem_of_app; right; apply list_elem_of_here).
  destruct (Hseen _ Hcur) as (_ & Hcurin & Hcurconn).
  assert (linked b cur q) as Hlink.
  { split; [done|]. split; [done|]. split; [by apply dirs_adjacent|].
    rewrite Hcol. symmetry. by apply connected_same_cell. }
  assert (∀ p, p ∈ done ++ cur :: queue ++ [q] ↔ p = q ∨ p ∈ done ++ cur :: queue)
    as Hmem.
  { intros p. rewrite !elem_of_app, !elem_of_cons, elem_of_app,
      list_elem_of_singleton. tauto. }
  split; [|split].
  - split; [by apply grid6_set2|]. split; [|split; [|split]].
    + replace (done ++ cur :: queue ++ [q]) with ((done ++ cur :: queue) ++ [q])
        by (by rewrite <- app_assoc).
      apply NoDup_app. split; [done|]. split; [|apply NoDup_singleton].
      intros p Hp Hpq. apply list_elem_of_singleton in Hpq as ->.
      apply Hnq, Hmark. by right.
    + intros p. rewrite marked_set2, Hmem, Hmark by done. tauto.
    + intros p Hp. apply Hmem in Hp as [->|Hp]; [|by apply Hseen].
      split; [|split; [done|by eapply rtc_r]].
      intros HS0. apply Hnq, Hmark. by left.
    + intros p p' Hp Hl. apply marked_set2; [done..|]. right. by eapply Hdone.
  - intros p Hp. apply marked_set2; [done..|]. by right.
  - intros ? -> _ _. apply marked_set2; [done..|]. by left.
Qed.

Lemma visit_all_neighbours (b : Board) (S0 : Pos → Prop) (s : Pos)
    (done : list Pos) (cur : Pos) (ds : list Dir) :
  ∀ (visited : list (list bool)) (queue : list Pos)
    (visited' : list (list bool)) (queue' : list Pos),
  (∀ d, d ∈ ds → d ∈ dirs) →
  flood_inv b S0 s done visited (cur :: queue) →
  fold_left (visit_neighbour b (cell_at b s.1 s.2) cur.1 cur.2) ds (visited, queue)
    = (visited', queue') →
  flood_inv b S0 s done visited' (cur :: queue')
  ∧ (∀ p, marked visited p → marked visited' p)
  ∧ (∀ d q, d ∈ ds → q = (cur.1 + d.1, cur.2 + d.2) → inb q →
            cell_at b q.1 q.2 = cell_at b s.1 s.2 → marked visited' q).
Proof.
  induction ds as [|d ds IH]; intros visited queue visited' queue' Hds Hinv Hfold.
  - simpl in Hfold. injection Hfold as <- <-.
    split; [done|]. split; [done|]. intros d q Hd. by apply elem_of_nil in Hd.
  - simpl in Hfold.
    destruct (visit_neighbour b (cell_at b s.1 s.2) cur.1 cur.2 (visited, queue) d)
      as [visited1 queue1] eqn:Hstep.
    apply visit_neighbour_inv with (S0 := S0) (done := done) in Hstep
      as (Hinv1 & Hmono1 & Hnb1); [|apply Hds, list_elem_of_here|done].
    apply IH in Hfold as (Hinv2 & Hmono2 & Hnb2);
      [|intros d0 Hd0; by apply Hds, list_elem_of_further|done].
    split; [done|]. split; [by auto|].
    intros d' q Hd' Hq Hin Hcell. apply elem_of_cons in Hd' as [->|Hd'].
    + apply Hmono2. by eapply Hnb1.
    + by eapply Hnb2.
Qed.

Lemma flood_spec (b : Board) (S0 : Pos → Prop) (s : Pos) (fuel : nat) :
  ∀ (done : list Pos) (visited : list (list bool)) (queue : list Pos),
  flood_inv b S0 s done visited queue →
  (Z.to_nat (ROWS * COLS) ≤ fuel + length done)%nat →
  ∃ visited' done',
    flood fuel b (cell_at b s.1 s.2) visited queue (Z.of_nat (length done))
      = Some (visited', Z.of_nat (length done'))
    ∧ flood_inv b S0 s done' visited' []
    ∧ (∀ p, p ∈ done ++ queue → p ∈ done').
Proof.
  induction fuel as [|fuel IH]; intros done visited queue Hinv Hfuel.
  - destruct queue as [|cur queue].
    + exists visited, done. simpl. split; [done|]. split; [done|].
      intros p. by rewrite app_nil_r.
    + exfalso. destruct Hinv as (_ & Hnd & _ & Hseen & _).
      assert (length (done ++ cur :: queue) ≤ Z.to_nat (ROWS * COLS))%nat as Hlen.
      { apply NoDup_inb_length; [done|]. apply Forall_forall. intros p Hp.
        by apply Hseen. }
      rewrite length_app in Hlen. simpl in Hlen. lia.
  - destruct queue as [|[rr cc] queue].
    + exists visited, done. simpl. split; [done|]. split; [done|].
      intros p. by rewrite app_nil_r.
    + cbn [flood].
      destruct (fold_left (visit_neighbour b (cell_at b s.1 s.2) rr cc) dirs
                  (visited, queue)) as [visited1 queue1] eqn:Hfold.
      apply (visit_all_neighbours b S0 s done (rr, cc)) in Hfold
        as (Hinv1 & Hmono & Hnb); [|done|done].
      assert (flood_inv b S0 s (done ++ [(rr, cc)]) visited1 queue1) as Hinv2.
      { destruct Hinv1 as (Hg & Hnd & Hmark & Hseen & Hdone).
        assert (∀ l, (done ++ [(rr, cc)]) ++ l = done ++ (rr, cc) :: l) as Heq
          by (intros l; by rewrite <- app_assoc).
        split; [done|]. rewrite Heq. split; [done|]. split; [done|].
        split; [done|].
        intros p q Hp Hl. apply elem_of_app in Hp as [Hp|Hp]; [by eapply Hdone|].
        apply list_elem_of_singleton in Hp as ->.
        destruct Hl as (_ & Hq & Hadj & Hcell).
        apply adjacent_dirs in Hadj as (d & Hd & Hqd).
        apply (Hnb d q Hd Hqd Hq). rewrite <- Hcell. symmetry.
        apply connected_same_cell, Hseen, elem_of_app. right.
        apply list_elem_of_here. }
      destruct (IH (done ++ [(rr, cc)]) visited1 queue1 Hinv2)
        as (visited' & done' & Hrun & Hinv' & Hsub).
      { rewrite length_app. simpl. lia. }
      exists visited', done'. rewrite length_app in Hrun. simpl in Hrun.
      replace (Z.of_nat (length done) + 1) with (Z.of_nat (length done + 1)) by lia.
      split; [done|]. split; [done|].
      intros p Hp. apply Hsub.
      destruct Hinv as (_ & _ & Hmark & Hseen & _).
      destruct Hinv2 as (_ & _ & Hmark2 & _).
      assert (marked visited1 p) as Hm by (apply Hmono, Hmark; by right).
      apply Hmark2 in Hm as [HS0|Hm]; [|done].
      exfalso. by destruct (Hseen p Hp) as [Hn _].
Qed.

Lemma flood_from_cell (b : Board) (visited : list (list bool)) (s : Pos) :
  scan_inv b visited → inb s → ¬ marked visited s →
  ∃ visited' group,
    flood (Z.to_nat (ROWS * COLS)) b (cell_at b s.1 s.2)
          (set2 visited s.1 s.2 true) [s] 0
      = Some (visited', Z.of_nat (length group))
    ∧ flood_inv b (marked visited) s group visited' []
    ∧ s ∈ group.
Proof.
  intros (Hg & Hin & Hcl & Hsmall) Hs Hns.
  destruct (flood_spec b (marked visited) s (Z.to_nat (ROWS * COLS)) []
              (set2 visited s.1 s.2 true) [s])
    as (visited' & group & Hrun & Hinv & Hsub).
  - split; [by apply grid6_set2|]. split; [apply NoDup_singleton|].
    split; [|split].
    + intros p. destruct s as [r c]. rewrite marked_set2 by done. simpl.
      rewrite list_elem_of_singleton. tauto.
    + intros p Hp. apply list_elem_of_singleton in Hp as ->.
      split; [done|]. split; [done|apply rtc_refl].
    + intros p q Hp. by apply elem_of_nil in Hp.
  - apply Nat.le_add_r.
  - exists visited', group. split; [done|]. split; [done|].
    apply Hsub. simpl. apply list_elem_of_here.
Qed.

Lemma flood_group_component (b : Board) (S0 : Pos → Prop) (s : Pos)
    (group : list Pos) (visited' : list (list bool)) :
  flood_inv b S0 s group visited' [] → in_one_component b group.
Proof.
  intros (_ & Hnd & _ & Hseen & _). rewrite app_nil_r in Hnd.
  split; [done|]. split.
  - apply Forall_forall. intros p Hp. apply Hseen. by rewrite app_nil_r.
  - intros p q Hp Hq. apply rtc_trans with s.
    + apply connected_sym, Hseen. by rewrite app_nil_r.
    + apply Hseen. by rewrite app_nil_r.
Qed.

Lemma flood_small_group (b : Board) (visited : list (list bool)) (s : Pos)
    (group : list Pos) (visited' : list (list bool)) :
  scan_inv b visited →
  flood_inv b (marked visited) s group visited' [] →
  (length group < 3)%nat →
  scan_inv b visited'.
Proof.
  intros (Hg & Hin & Hcl & Hsmall) (Hg' & Hnd & Hmark & Hseen & Hdone) Hlen.
  rewrite app_nil_r in Hnd.
  assert (∀ p, marked visited' p ↔ marked visited p ∨ p ∈ group) as Hmark'.
  { intros p. rewrite Hmark. by rewrite app_nil_r. }
  assert (∀ p, p ∈ group → ¬ marked visited p ∧ inb p ∧ connected b s p) as Hseen'.
  { intros p Hp. apply Hseen. by rewrite app_nil_r. }
  assert (closed_under_links b (marked visited')) as Hcl'.
  { intros p q Hp Hl. apply Hmark' in Hp as [Hp|Hp].
    - apply Hmark'. left. by apply (Hcl p).
    - by apply (Hdone p). }
  split; [done|]. split; [|split; [done|]].
  - intros p Hp. apply Hmark' in Hp as [Hp|Hp]; [by apply Hin|by apply Hseen'].
  - intros p Hp. apply Hmark' in Hp as [Hp|Hp]; [by apply Hsmall|].
    intros (l & (Hndl & _ & Hconn) & Hl3 & Hpl).
    assert (length l ≤ length group)%nat; [|lia].
    apply submseteq_length, NoDup_submseteq; [done|].
    intros q Hq.
    assert (marked visited' q) as Hmq.
    { apply (closed_connected b _ p); [done|apply Hmark'; by right|by apply Hconn]. }
    apply Hmark' in Hmq as [Hmq|Hmq]; [|done].
    exfalso. destruct (Hseen' p Hp) as [Hn _]. apply Hn.
    apply (closed_connected b _ q); [done..|]. by apply Hconn.
Qed.

Lemma scan_spec (b : Board) (cells : list Pos) :
  ∀ visited : list (list bool),
  scan_inv b visited → (∀ p, p ∈ cells → inb p) →
  ∃ r, scan (Z.to_nat (ROWS * COLS)) b visited cells = Some r
       ∧ (r = true → has_component3 b)
       ∧ (r = false → ∀ p, p ∈ cells → ¬ in_big_component b p).
Proof.
  induction cells as [|[r c] cells IH]; intros visited Hinv Hcells.
  - exists false. split; [done|]. split; [done|].
    intros _ p Hp. by apply elem_of_nil in Hp.
  - cbn [scan].
    assert (inb (r, c)) as Hrc by apply Hcells, list_elem_of_here.
    destruct (at2 false visited r c) eqn:Hvis.
    + destruct (IH visited Hinv) as (res & Hres & Htrue & Hfalse);
        [intros p Hp; by apply Hcells, list_elem_of_further|].
      exists res. split; [done|]. split; [done|].
      intros Hr p Hp. apply elem_of_cons in Hp as [->|Hp]; [|by apply Hfalse].
      destruct Hinv as (_ & _ & _ & Hsmall). by apply Hsmall.
    + destruct (flood_from_cell b visited (r, c)) as (visited' & group & Hrun & Hfl & Hs).
      { done. } { done. } { unfold marked. simpl. congruence. }
      cbn [fst snd] in Hrun. rewrite Hrun.
      destruct (bool_decide (3 ≤ Z.of_nat (length group))) eqn:Hbig.
      * apply bool_decide_eq_true in Hbig. exists true.
        split; [done|]. split; [|done]. intros _. exists group.
        split; [by eapply flood_group_component|lia].
      * apply bool_decide_eq_false in Hbig.
        assert (scan_inv b visited') as Hinv'.
        { eapply flood_small_group; [done..|lia]. }
        destruct (IH visited' Hinv') as (res & Hres & Htrue & Hfalse);
          [intros p Hp; by apply Hcells, list_elem_of_further|].
        exists res. split; [done|]. split; [done|].
        intros Hr p Hp. apply elem_of_cons in Hp as [->|Hp]; [|by apply Hfalse].
        destruct Hinv' as (_ & _ & _ & Hsmall). apply Hsmall.
        destruct Hfl as (_ & _ & Hmark & _). apply Hmark. right.
        by rewrite app_nil_r.
Qed.

(** hasAvailableMoves always returns, and it returns true exactly when three
    distinct cells of the 6 by 6 area are connected through neighbouring
    cells of equal content. *)
Lemma hasAvailableMoves_spec (b : Board) :
  ∃ r, hasAvailableMoves b = Some r ∧ (r = true ↔ has_component3 b).
Proof.
  destruct (scan_spec b all_cells
              (replicate (Z.to_nat ROWS) (replicate (Z.to_nat COLS) false)))
    as (r & Hr & Htrue & Hfalse).
  - assert (∀ p, ¬ marked (replicate (Z.to_nat ROWS)
                                   (replicate (Z.to_nat COLS) false)) p) as Hblank.
    { intros p. unfold marked. by rewrite at2_blank. }
    split; [apply grid6_blank|]. split; [|split].
    + intros p Hp. by apply Hblank in Hp.
    + intros p q Hp. by apply Hblank in Hp.
    + intros p Hp. by apply Hblank in Hp.
  - intros p. apply elem_of_all_cells.
  - exists r. split; [done|]. split; [done|].
    intros (l & Hl & Hlen). destruct r; [done|]. exfalso.
    destruct l as [|p l']; [simpl in Hlen; lia|].
    apply (Hfalse eq_refl p).
    + apply elem_of_all_cells. destruct Hl as (_ & Hin & _).
      by apply Forall_cons in Hin as [? _].
    + exists (p :: l'). split; [done|]. split; [done|apply list_elem_of_here].
Qed.

(** ** Gravity *)

#[local] Arguments collapse_step : simpl never.

Lemma cell_at_set2_eq (b : Board) (r c : Z) (v : Cell) :
  grid6 b → inb (r, c) → cell_at (set2 b r c v) r c = v.
Proof. apply at2_set2_eq. Qed.

Lemma cell_at_set2_ne (b : Board) (r c r' c' : Z) (v : Cell) :
  (r, c) ≠ (r', c') → cell_at (set2 b r c v) r' c' = cell_at b r' c'.
Proof. apply at2_set2_ne. Qed.

Lemma seqZ_from (m n : Z) : 0 < n → seqZ (m - 1) (n + 1) = (m - 1) :: seqZ m n.
Proof.
  intros Hn. rewrite seqZ_cons by lia. f_equal. f_equal; lia.
Qed.

Lemma collapse_step_inv (b0 : Board) (c r0 : Z) (st : Board * Z) :
  0 ≤ c < COLS → 0 < r0 ≤ ROWS →
  collapse_inv b0 c r0 st →
  collapse_inv b0 c (r0 - 1) (collapse_step c st (r0 - 1)).
Proof.
  intros Hc Hr0. destruct st as [b ptr].
  intros (Hg & Hoth & Hlow & Hptr & Hemp & Hbot).
  assert (seqZ (r0 - 1) (ROWS - (r0 - 1)) = (r0 - 1) :: seqZ r0 (ROWS - r0)) as Hseq.
  { rewrite seqZ_cons by lia. f_equal. f_equal; lia. }
  unfold collapse_step. rewrite (Hlow (r0 - 1)) by lia.
  destruct (bool_decide (cell_at b0 (r0 - 1) c ≠ Empty)) eqn:Hv.
  2:{ apply bool_decide_eq_false in Hv. apply dec_stable in Hv.
      split; [done|]. split; [done|]. split; [intros; apply Hlow; lia|].
      split; [lia|]. split.
      - intros r Hr. destruct (decide (r = r0 - 1)) as [->|Hne].
        + by rewrite Hlow by lia.
        + apply Hemp. lia.
      - rewrite Hbot, Hseq, fmap_cons. by rewrite filter_cons_False by tauto. }
  apply bool_decide_eq_true in Hv.
  destruct (bool_decide (r0 - 1 ≠ ptr)) eqn:Hp.
  - apply bool_decide_eq_true in Hp.
    assert (inb (ptr, c)) as Hpc by (unfold inb; simpl; unfold ROWS in *; lia).
    assert (inb (r0 - 1, c)) as Hrc by (unfold inb; simpl; unfold ROWS in *; lia).
    assert (grid6 (set2 b ptr c (cell_at b0 (r0 - 1) c))) as Hg1 by by apply grid6_set2.
    split; [by apply grid6_set2|]. split; [|split; [|split; [lia|split]]].
    + intros r c' Hc'. rewrite !cell_at_set2_ne by congruence. by apply Hoth.
    + intros r Hr. rewrite !cell_at_set2_ne by (intros [=]; lia). apply Hlow. lia.
    + intros r Hr. destruct (decide (r = r0 - 1)) as [->|Hne].
      * by apply cell_at_set2_eq.
      * rewrite !cell_at_set2_ne by (intros [=]; lia). apply Hemp. lia.
    + replace (ptr - 1 + 1) with (ptr + 1 - 1) by lia.
      replace (ROWS - 1 - (ptr - 1)) with (ROWS - 1 - ptr + 1) by lia.
      destruct (decide (ROWS - 1 - ptr = 0)) as [Hz|Hz].
      * rewrite Hz in *. replace (ptr + 1 - 1) with ptr by lia.
        change (seqZ ptr (0 + 1)) with [ptr]. rewrite Hseq, !fmap_cons.
        rewrite filter_cons_True by done. rewrite <- Hbot.
        rewrite seqZ_nil by lia. simpl. f_equal.
        rewrite cell_at_set2_ne by (intros [=]; lia). by apply cell_at_set2_eq.
      * rewrite seqZ_from by lia. rewrite Hseq, !fmap_cons.
        rewrite filter_cons_True by done. rewrite <- Hbot.
        replace (ptr + 1 - 1) with ptr by lia. f_equal.
        -- rewrite cell_at_set2_ne by (intros [=]; lia). by apply cell_at_set2_eq.
        -- apply list_fmap_ext. intros i r Hi.
           apply lookup_seqZ in Hi as [-> Hi].
           by rewrite !cell_at_set2_ne by (intros [=]; lia).
  - apply bool_decide_eq_false in Hp. apply dec_stable in Hp. subst ptr.
    split; [done|]. split; [done|]. split; [intros; apply Hlow; lia|].
    split; [lia|]. split; [intros; lia|].
    replace (r0 - 1 - 1 + 1) with (r0 - 1) by lia.
    replace (ROWS - 1 - (r0 - 1 - 1)) with (ROWS - (r0 - 1)) by lia.
    rewrite !Hseq, !fmap_cons, filter_cons_True by done.
    rewrite Hlow by lia. f_equal. rewrite <- Hbot. f_equal. f_equal; lia.
Qed.

Lemma collapse_rows_inv (b : Board) (c : Z) (n : nat) :
  grid6 b → 0 ≤ c < COLS → Z.of_nat n ≤ ROWS →
  collapse_inv b c (ROWS - Z.of_nat n)
    (fold_left (collapse_step c)
               (reverse (seqZ (ROWS - Z.of_nat n) (Z.of_nat n))) (b, ROWS - 1)).
Proof.
  intros Hg Hc. induction n as [|n IH]; intros Hn.
  - simpl. split; [done|]. split; [done|]. split; [done|].
    unfold ROWS. split; [lia|]. split; [intros; lia|done].
  - assert (seqZ (ROWS - Z.of_nat (S n)) (Z.of_nat (S n))
            = (ROWS - Z.of_nat n - 1) :: seqZ (ROWS - Z.of_nat n) (Z.of_nat n)) as ->.
    { rewrite seqZ_cons by lia. f_equal; [lia|]. f_equal; lia. }
    rewrite reverse_cons, fold_left_app. cbn [fold_left].
    replace (ROWS - Z.of_nat (S n)) with (ROWS - Z.of_nat n - 1) by lia.
    apply collapse_step_inv; [done|lia|]. apply IH. lia.
Qed.

Lemma length_filter_split (col : list Cell) :
  (length (filter (λ v, v = Empty) col) + length (filter (λ v, v ≠ Empty) col)
   = length col)%nat.
Proof.
  rewrite <- length_app. apply Permutation_length, filter_app_complement.
Qed.

Lemma collapse_column_spec (b : Board) (c : Z) :
  grid6 b → 0 ≤ c < COLS →
  grid6 (collapse_column b c)
  ∧ column (collapse_column b c) c = compact (column b c)
  ∧ (∀ r c', c' ≠ c → cell_at (collapse_column b c) r c' = cell_at b r c').
Proof.
  intros Hg Hc. unfold collapse_column.
  pose proof (collapse_rows_inv b c (Z.to_nat ROWS) Hg Hc) as Hinv.
  replace (ROWS - Z.of_nat (Z.to_nat ROWS)) with 0 in Hinv by done.
  replace (Z.of_nat (Z.to_nat ROWS)) with ROWS in Hinv by done.
  specialize (Hinv ltac:(done)).
  destruct (fold_left (collapse_step c) (reverse (seqZ 0 ROWS)) (b, ROWS - 1))
    as [b' ptr].
  destruct Hinv as (Hg' & Hoth & _ & Hptr & Hemp & Hbot).
  split; [done|]. split; [|done]. cbn [fst].
  fold (column b c) in Hbot. replace (ROWS - 0) with ROWS in Hbot by done.
  fold (column b c) in Hbot.
  assert (length (column b c) = Z.to_nat ROWS) as Hlen.
  { unfold column. by rewrite length_fmap, length_seqZ. }
  assert (length (filter (λ v, v ≠ Empty) (column b c)) = Z.to_nat (ROWS - 1 - ptr))
    as Hne.
  { by rewrite <- Hbot, length_fmap, length_seqZ. }
  pose proof (length_filter_split (column b c)) as Hsplit.
  unfold compact. rewrite <- Hbot.
  replace (length (filter (λ v, v = Empty) (column b c))) with (Z.to_nat (ptr + 1))
    by lia.
  unfold column at 1.
  replace ROWS with ((ptr + 1) + (ROWS - 1 - ptr)) at 1 by lia.
  rewrite seqZ_app, fmap_app by lia. f_equal.
  apply list_eq. intros i. rewrite list_lookup_fmap.
  destruct (decide (Z.of_nat i < ptr + 1)) as [Hi|Hi].
  - rewrite lookup_seqZ_lt by done. rewrite lookup_replicate_2 by lia.
    simpl. f_equal. apply Hemp. lia.
  - rewrite lookup_seqZ_ge by lia. symmetry. apply lookup_replicate_None. lia.
Qed.

Lemma collapse_columns_spec (b : Board) (n : nat) :
  grid6 b → Z.of_nat n ≤ COLS →
  grid6 (fold_left collapse_column (seqZ 0 (Z.of_nat n)) b)
  ∧ (∀ c, 0 ≤ c < Z.of_nat n →
       column (fold_left collapse_column (seqZ 0 (Z.of_nat n)) b) c
       = compact (column b c))
  ∧ (∀ r c, Z.of_nat n ≤ c →
       cell_at (fold_left collapse_column (seqZ 0 (Z.of_nat n)) b) r c
       = cell_at b r c).
Proof.
  intros Hg. induction n as [|n IH]; intros Hn.
  - simpl. split; [done|]. split; [intros; lia|done].
  - rewrite seqZ_S, fold_left_app. cbn [fold_left].
    destruct IH as (Hg' & Hdone & Hrest); [lia|].
    set (b' := fold_left collapse_column (seqZ 0 (Z.of_nat n)) b) in *.
    destruct (collapse_column_spec b' (0 + Z.of_nat n)) as (Hg'' & Hcol & Hoth);
      [done|lia|].
    split; [done|]. split.
    + intros c Hc. destruct (decide (c = 0 + Z.of_nat n)) as [->|Hne].
      * rewrite Hcol. f_equal. unfold column. apply list_fmap_ext.
        intros i r _. apply Hrest. lia.
      * rewrite <- Hdone by lia. unfold column. apply list_fmap_ext.
        intros i r _. by apply Hoth.
    + intros r c Hc. rewrite Hoth by lia. apply Hrest. lia.
Qed.

Lemma grid6_ext (b1 b2 : Board) :
  grid6 b1 → grid6 b2 →
  (∀ c, 0 ≤ c < COLS → column b1 c = column b2 c) →
  b1 = b2.
Proof.
  intros [Hl1 Hr1] [Hl2 Hr2] Hcols.
  assert (∀ r c, 0 ≤ r < ROWS → 0 ≤ c < COLS → cell_at b1 r c = cell_at b2 r c)
    as Hcell.
  { intros r c Hr Hc. specialize (Hcols c Hc). unfold column in Hcols.
    apply (f_equal (λ l, l !! Z.to_nat r)) in Hcols.
    rewrite !list_lookup_fmap, lookup_seqZ_lt in Hcols by lia.
    simpl in Hcols. replace (0 + Z.of_nat (Z.to_nat r)) with r in Hcols by lia.
    congruence. }
  rewrite Forall_lookup in Hr1, Hr2.
  apply list_eq_same_length with (Z.to_nat ROWS); [done..|].
  intros i row1 row2 Hi Hrow1 Hrow2.
  apply list_eq_same_length with (Z.to_nat COLS); [by eauto..|].
  intros j v1 v2 Hj Hv1 Hv2.
  specialize (Hcell (Z.of_nat i) (Z.of_nat j)).
  unfold cell_at, at2, zlookup in Hcell.
  rewrite !bool_decide_eq_true_2, !Nat2Z.id, Hrow1, Hrow2 in Hcell by lia.
  simpl in Hcell. rewrite Hv1, Hv2 in Hcell.
  apply Hcell; unfold ROWS, COLS in *; lia.
Qed.

Lemma compact_idempotent (col : list Cell) : compact (compact col) = compact col.
Proof.
  unfold compact.
  assert (∀ k (l : list Cell),
            filter (λ v, v = Empty) (replicate k Empty ++ l)
            = replicate k Empty ++ filter (λ v, v = Empty) l) as Hk.
  { intros k l. induction k as [|k IH]; [done|]. simpl.
    by rewrite filter_cons_True, IH by done. }
  assert (∀ k (l : list Cell),
            filter (λ v, v ≠ Empty) (replicate k Empty ++ l)
            = filter (λ v, v ≠ Empty) l) as Hk'.
  { intros k l. induction k as [|k IH]; [done|]. simpl.
    by rewrite filter_cons_False, IH by tauto. }
  assert (filter (λ v, v = Empty) (filter (λ v, v ≠ Empty) col) = []) as Hnil.
  { clear. induction col as [|v col IH]; [done|].
    destruct (decide (v = Empty)) as [->|Hv].
    - by rewrite (filter_cons_False (λ v, v ≠ Empty)) by tauto.
    - rewrite (filter_cons_True (λ v, v ≠ Empty)) by done.
      by rewrite filter_cons_False by done. }
  assert (filter (λ v, v ≠ Empty) (filter (λ v, v ≠ Empty) col)
          = filter (λ v, v ≠ Empty) col) as Hsame.
  { clear. induction col as [|v col IH]; [done|].
    destruct (decide (v = Empty)) as [->|Hv].
    - by rewrite !(filter_cons_False (λ v, v ≠ Empty)) by tauto.
    - rewrite !(filter_cons_True (λ v, v ≠ Empty)) by done. by rewrite IH. }
  rewrite Hk, Hk', Hnil, Hsame, app_nil_r, length_replicate. done.
Qed.

(** ** Move availability: the claims *)

Ltac solve_grid :=
  unfold full_grid, playable_grid, grid6; vm_compute;
  repeat match goal with
         | |- _ ∧ _ => split
         | |- Forall _ (_ :: _) => apply Forall_cons_2
         | |- Forall _ [] => apply Forall_nil_2
         | |- ∃ _, _ => by eexists
         | |- _ = _ → False => discriminate
         | |- _ = _ => reflexivity
         end.

(** C2. On every 6 by 6 grid whose cells all hold a palette colour,
    hasAvailableMoves returns, and it returns true exactly when the grid has
    a 4-connected same-colour component of size at least 3; it returns true
    on every all-one-colour grid and false on every checkerboard of two
    distinct colours. *)
Theorem hasAvailableMoves_iff_component3 :
  (∀ b, full_grid b →
        ∃ r, hasAvailableMoves b = Some r ∧ (r = true ↔ has_component3 b))
  ∧ (∀ c, full_grid (uniform_grid c)
          ∧ hasAvailableMoves (uniform_grid c) = Some true)
  ∧ (∀ c1 c2, c1 ≠ c2 →
        full_grid (checkerboard c1 c2)
        ∧ hasAvailableMoves (checkerboard c1 c2) = Some false).
Proof.
  split; [|split].
  - intros b _. apply hasAvailableMoves_spec.
  - intros c. split; [solve_grid|]. by destruct c; vm_compute.
  - intros c1 c2 Hne. split; [solve_grid|].
    by destruct c1, c2; try done; vm_compute.
Qed.

Lemma hasAvailableMoves_iff_component3_witness :
  full_grid (checkerboard red blue)
  ∧ ∃ r, hasAvailableMoves (checkerboard red blue) = Some r
         ∧ (r = true ↔ has_component3 (checkerboard red blue)).
Proof.
  split; [solve_grid|].
  apply (proj1 hasAvailableMoves_iff_component3 (checkerboard red blue)).
  solve_grid.
Defined.

Lemma hole_grid_links (p q : Pos) :
  linked hole_grid p q → cell_at hole_grid p.1 p.2 = Empty.
Proof.
  intros (Hp & Hq & Hadj & Hcell).
  apply adjacent_dirs in Hadj as (d & Hd & ->).
  apply elem_of_all_cells in Hp.
  assert (Forall (λ p : Pos, Forall (λ d : Dir,
            inb (p.1 + d.1, p.2 + d.2) →
            cell_at hole_grid p.1 p.2
              = cell_at hole_grid (p.1 + d.1) (p.2 + d.2) →
            cell_at hole_grid p.1 p.2 = Empty) dirs) all_cells) as Hall.
  { apply (bool_decide_unpack _). by vm_compute. }
  rewrite Forall_forall in Hall. specialize (Hall p Hp).
  rewrite Forall_forall in Hall. by apply (Hall d Hd).
Qed.

(** C10. hasAvailableMoves compares cell contents with [===], so Empty
    matches Empty: three or more connected Empty cells make it return true,
    also on a grid (here [hole_grid]) on which no three tiles of one colour
    are connected. *)
Theorem hasAvailableMoves_counts_empty_cells :
  (∀ b l, in_one_component b l → (3 ≤ length l)%nat →
          Forall (λ p, cell_at b p.1 p.2 = Empty) l →
          hasAvailableMoves b = Some true)
  ∧ hasAvailableMoves hole_grid = Some true
  ∧ ¬ (∃ l, in_one_component hole_grid l ∧ (3 ≤ length l)%nat
            ∧ Forall (λ p, is_tile (cell_at hole_grid p.1 p.2)) l).
Proof.
  split; [|split].
  - intros b l Hl Hlen _.
    destruct (hasAvailableMoves_spec b) as (r & -> & Hr).
    f_equal. apply Hr. by exists l.
  - by vm_compute.
  - intros (l & (Hnd & _ & Hconn) & Hlen & Htiles).
    destruct l as [|p [|q l]]; [simpl in Hlen; lia..|].
    apply NoDup_cons in Hnd as [Hpq _].
    assert (connected hole_grid p q) as Hc by (apply Hconn; repeat constructor).
    apply rtc_inv in Hc as [->|(y & Hpy & _)];
      [exfalso; apply Hpq, list_elem_of_here|].
    apply hole_grid_links in Hpy.
    apply Forall_cons in Htiles as [[c Hc] _]. congruence.
Qed.

Lemma hasAvailableMoves_counts_empty_cells_witness :
  hasAvailableMoves hole_grid = Some true.
Proof.
  apply (proj1 hasAvailableMoves_counts_empty_cells hole_grid [(0, 0); (0, 1); (0, 2)]).
  - split; [|split].
    + apply (bool_decide_unpack _). by vm_compute.
    + repeat (apply Forall_cons; split; [by vm_compute|]). apply Forall_nil_2.
    + assert (linked hole_grid (0, 0) (0, 1)) as H01 by by vm_compute.
      assert (linked hole_grid (0, 1) (0, 2)) as H12 by by vm_compute.
      assert (∀ p q, p ∈ [(0, 0); (0, 1); (0, 2)] → q ∈ [(0, 0); (0, 1); (0, 2)] →
                     rtc (linked hole_grid) p q) as Hall.
      { intros p q Hp Hq.
        assert (rtc (linked hole_grid) (0, 0) p) as H0p.
        { repeat (apply elem_of_cons in Hp as [->|Hp]);
            [apply rtc_refl|by apply rtc_once|by eapply rtc_l; [|apply rtc_once]|].
          by apply elem_of_nil in Hp. }
        assert (rtc (linked hole_grid) (0, 0) q) as H0q.
        { repeat (apply elem_of_cons in Hq as [->|Hq]);
            [apply rtc_refl|by apply rtc_once|by eapply rtc_l; [|apply rtc_once]|].
          by apply elem_of_nil in Hq. }
        eapply rtc_trans; [|exact H0q]. by apply connected_sym. }
      exact Hall.
  - simpl. lia.
  - by repeat constructor.
Defined.

(** ** Gravity: the claim *)

(** C3. On every 6 by 6 grid whose cells hold a colour or Empty,
    collapseBoard turns each column into its Empty cells followed by its
    non-empty cells in their original top-to-bottom order, independently of
    the other columns, and applying it a second time changes nothing. *)
Theorem collapseBoard_compacts_columns (b : Board) :
  playable_grid b →
  (∀ c, 0 ≤ c < COLS → column (collapseBoard b) c = compact (column b c))
  ∧ collapseBoard (collapseBoard b) = collapseBoard b.
Proof.
  intros [Hg _]. unfold collapseBoard.
  destruct (collapse_columns_spec b (Z.to_nat COLS) Hg) as (Hg1 & Hcol1 & _); [done|].
  change (Z.of_nat (Z.to_nat COLS)) with COLS in *.
  destruct (collapse_columns_spec _ (Z.to_nat COLS) Hg1) as (Hg2 & Hcol2 & _); [done|].
  change (Z.of_nat (Z.to_nat COLS)) with COLS in *.
  split; [done|].
  apply grid6_ext; [done..|]. intros c Hc.
  by rewrite Hcol2, Hcol1, compact_idempotent.
Qed.

Lemma collapseBoard_compacts_columns_witness :
  column (collapseBoard hole_grid) 0 = compact (column hole_grid 0)
  ∧ collapseBoard (collapseBoard hole_grid) = collapseBoard hole_grid.
Proof.
  destruct (collapseBoard_compacts_columns hole_grid) as [Hcol Hid].
  - solve_grid.
  - split; [apply Hcol; unfold COLS; lia|exact Hid].
Defined.

(** ** Random colours and the reshuffle *)

Lemma random_colour_tile (src : nat → Q) (k : nat) :
  random_source src → is_tile (random_colour src k).
Proof.
  intros Hsrc. destruct (Hsrc k) as [H0 H1]. unfold random_colour.
  set (i := Qfloor (src k * inject_Z (Z.of_nat (length COLOURS)))).
  assert (0 ≤ i < 5) as Hi.
  { subst i. change (inject_Z (Z.of_nat (length COLOURS))) with (5 # 1)%Q. split.
    - change 0 with (Qfloor 0). apply Qfloor_resp_le.
      apply Qmult_le_0_compat; [done|]. by vm_compute.
    - rewrite Zlt_Qlt. apply Qle_lt_trans with (src k * (5 # 1))%Q.
      + apply Qfloor_le.
      + change (inject_Z 5) with (1 * (5 # 1))%Q.
        apply Qmult_lt_compat_r; [by vm_compute|done]. }
  unfold zlookup, COLOURS. rewrite bool_decide_eq_true_2 by lia.
  assert (i = 0 ∨ i = 1 ∨ i = 2 ∨ i = 3 ∨ i = 4) as [->|[->|[->|[->| ->]]]] by lia;
    by eexists.
Qed.

Lemma full_grid_cells (b : Board) :
  grid6 b → (∀ p, inb p → is_tile (cell_at b p.1 p.2)) → full_grid b.
Proof.
  intros Hg Hcells. split; [done|]. destruct Hg as [Hlen Hrows].
  rewrite Forall_lookup in Hrows.
  apply Forall_lookup. intros i row Hrow. apply Forall_lookup. intros j v Hv.
  pose proof (lookup_lt_Some _ _ _ Hrow) as Hi.
  pose proof (lookup_lt_Some _ _ _ Hv) as Hj.
  rewrite (Hrows _ _ Hrow) in Hj.
  specialize (Hcells (Z.of_nat i, Z.of_nat j)). simpl in Hcells.
  unfold cell_at, at2, zlookup in Hcells.
  rewrite !bool_decide_eq_true_2, !Nat2Z.id, Hrow in Hcells by lia.
  simpl in Hcells. rewrite Hv in Hcells.
  apply Hcells. unfold inb, ROWS, COLS in *. simpl. lia.
Qed.

Lemma regenerate_cells (src : nat → Q) (cells : list Pos) :
  random_source src →
  ∀ (b : Board) (k : nat) (b' : Board) (k' : nat),
  grid6 b → (∀ p, p ∈ cells → inb p) →
  fold_left (λ '(b, k) '(r, c), (set2 b r c (random_colour src k), S k))
            cells (b, k) = (b', k') →
  grid6 b' ∧ k' = (k + length cells)%nat
  ∧ (∀ p, inb p → p ∈ cells ∨ is_tile (cell_at b p.1 p.2) →
          is_tile (cell_at b' p.1 p.2)).
Proof.
  intros Hsrc. induction cells as [|[r c] cells IH]; intros b k b' k' Hg Hin Hfold.
  - injection Hfold as <- <-. split; [done|]. split; [simpl; lia|].
    intros p _ [Hp|Hp]; [by apply elem_of_nil in Hp|done].
  - cbn [fold_left] in Hfold.
    apply IH in Hfold as (Hg' & -> & Htiles);
      [|by apply grid6_set2|intros p Hp; by apply Hin, list_elem_of_further].
    split; [done|]. split; [simpl; lia|].
    intros p Hp Hor. apply Htiles; [done|].
    destruct (decide (p = (r, c))) as [->|Hne].
    + right. simpl. rewrite cell_at_set2_eq; [|done|apply Hin, list_elem_of_here].
      by apply random_colour_tile.
    + destruct Hor as [Hor|Hor];
        [left; by apply elem_of_cons in Hor as [->|Hor]|right].
      rewrite cell_at_set2_ne; [done|]. destruct p. simpl. congruence.
Qed.

Lemma regenerate_spec (src : nat → Q) (k : nat) (b b' : Board) (k' : nat) :
  random_source src → grid6 b →
  regenerate src k b = (b', k') →
  full_grid b' ∧ k' = (k + 36)%nat.
Proof.
  intros Hsrc Hg Hreg.
  apply regenerate_cells in Hreg as (Hg' & -> & Htiles);
    [|done|done|intros p; apply elem_of_all_cells].
  split; [|done]. apply full_grid_cells; [done|].
  intros p Hp. apply Htiles; [done|]. left. by apply elem_of_all_cells.
Qed.

Lemma shuffle_loop_spec (src : nat → Q) (fuel : nat) :
  random_source src →
  ∀ (k : nat) (b : Board) (attempts : Z),
  grid6 b → 0 ≤ attempts ≤ 50 → 51 ≤ attempts + Z.of_nat fuel →
  ∃ b' n k',
    shuffle_loop fuel src k b attempts = Some (b', n, k')
    ∧ full_grid b'
    ∧ attempts < n ≤ 51
    ∧ Z.of_nat k' = Z.of_nat k + 36 * (n - attempts)
    ∧ (n ≤ 50 → hasAvailableMoves b' = Some true).
Proof.
  intros Hsrc. induction fuel as [|fuel IH]; intros k b attempts Hg Hatt Hfuel;
    [lia|].
  cbn [shuffle_loop].
  destruct (regenerate src k b) as [b1 k1] eqn:Hreg.
  apply regenerate_spec in Hreg as [Hfull ->]; [|done..].
  destruct (bool_decide (50 < attempts + 1)) eqn:Hcap.
  { apply bool_decide_eq_true in Hcap. exists b1, (attempts + 1), (k + 36)%nat.
    split; [done|]. split; [done|]. split; [lia|]. split; lia. }
  apply bool_decide_eq_false in Hcap.
  destruct (hasAvailableMoves_spec b1) as ([|] & Hres & _); rewrite Hres.
  { exists b1, (attempts + 1), (k + 36)%nat.
    split; [done|]. split; [done|]. split; [lia|]. split; [lia|done]. }
  destruct (IH (k + 36)%nat b1 (attempts + 1)) as (b' & n & k' & Hrun & ? & ? & ? & ?);
    [by destruct Hfull|lia|lia|].
  exists b', n, k'. split; [done|]. split; [done|]. split; [lia|]. split; [lia|done].
Qed.

Lemma checker_src_random : random_source checker_src.
Proof.
  intros k. unfold checker_src. by destruct (Nat.even _).
Qed.

(** Under [checker_src] the first 50 boards have no move, the loop does not
    stop after 50 regenerations, and the 51st board is accepted as it is:
    the claim "within 50 attempts" fails on this input. *)
Lemma shuffleBoard_51_regenerations :
  random_source checker_src
  ∧ full_grid (uniform_grid red)
  ∧ shuffleBoard 50 checker_src 0 (uniform_grid red) = None
  ∧ shuffleBoard 51 checker_src 0 (uniform_grid red)
    = Some (checkerboard red blue, 51, 1836%nat)
  ∧ hasAvailableMoves (checkerboard red blue) = Some false.
Proof.
  split; [apply checker_src_random|]. split; [solve_grid|].
  split; [by vm_compute|]. split; by vm_compute.
Qed.

(** C4 (amended). shuffleBoard always terminates, after at most 51
    regenerations of the whole grid ([attempts > 50] is tested after the
    increment, so the loop is left when [attempts] is 51); when it returns
    every cell holds a palette colour, whether or not the board has a move;
    a board reached in 50 or fewer attempts has one. *)
Theorem shuffleBoard_terminates_full (src : nat → Q) (fuel k : nat) (b : Board) :
  random_source src → grid6 b → (51 ≤ fuel)%nat →
  ∃ b' n k',
    shuffleBoard fuel src k b = Some (b', n, k')
    ∧ 1 ≤ n ≤ 51
    ∧ full_grid b'
    ∧ Z.of_nat k' = Z.of_nat k + 36 * n
    ∧ (n ≤ 50 → hasAvailableMoves b' = Some true).
Proof.
  intros Hsrc Hg Hfuel. unfold shuffleBoard.
  destruct (shuffle_loop_spec src fuel Hsrc k b 0)
    as (b' & n & k' & Hrun & Hfull & Hn & Hk & Hmove); [done|lia|lia|].
  exists b', n, k'. split; [done|]. split; [lia|]. split; [done|].
  split; [lia|done].
Qed.

Lemma shuffleBoard_terminates_full_witness :
  ∃ b' n k',
    shuffleBoard 60 checker_src 0 (uniform_grid red) = Some (b', n, k')
    ∧ 1 ≤ n ≤ 51
    ∧ full_grid b'
    ∧ Z.of_nat k' = Z.of_nat 0 + 36 * n
    ∧ (n ≤ 50 → hasAvailableMoves b' = Some true).
Proof.
  apply (shuffleBoard_terminates_full checker_src 60 0 (uniform_grid red)).
  - apply checker_src_random.
  - solve_grid.
  - lia.
Defined.

(** ** Scoring: the claim *)

Lemma score_agrees_box : Forall score_agrees score_box.
Proof.
  apply (bool_decide_unpack _). by vm_compute.
Qed.

(** On the arguments a game can produce, the binary64 computation of
    calculateScore is exact: it returns the integer nearest to
    [l*l*10*(1 + 0.15*t)*m], the upper one on a tie. *)
Lemma calculateScore_exact_in_game (l t m : Z) :
  0 ≤ l ≤ 36 → 0 ≤ t ≤ 34 → 1 ≤ m ≤ 64 →
  calculateScore (Z2F l) (Z2F t) (Z2F m) = Z2F (score_exact l t m).
Proof.
  intros Hl Ht Hm. apply Prim2SF_inj.
  pose proof score_agrees_box as Hbox. rewrite Forall_forall in Hbox.
  apply (Hbox (l, t, m)). unfold score_box.
  apply list_elem_of_bind. exists l. split; [|apply elem_of_seqZ; lia].
  apply list_elem_of_bind. exists t. split; [|apply elem_of_seqZ; lia].
  apply list_elem_of_bind. exists m. split; [|apply elem_of_seqZ; lia].
  by apply list_elem_of_singleton.
Qed.

(** A tie is rounded upwards: 14.5 gives 15 (round-half-to-even would
    give 14). *)
Lemma calculateScore_tie : calculateScore 1 3 1 = 15%float.
Proof. reflexivity. Qed.

(** C1. For all non-negative integers length, turns and multiplier,
    calculateScore returns [Math.round] of
    [(length*length*10 + length*length*10*0.15*turns) * multiplier]; it is a
    function of its three arguments alone; on the arguments of a game this
    is the exactly rounded value of the formula; and
    calculateScore(3,0,1) = 90, (5,0,1) = 250, (5,2,1) = 325, (5,0,2) = 500. *)
Theorem calculateScore_formula :
  (∀ length turns multiplier : N,
     let l := Z2F (Z.of_N length) in
     let t := Z2F (Z.of_N turns) in
     let m := Z2F (Z.of_N multiplier) in
     calculateScore l t m
     = Math_round ((l * l * 10 + l * l * 10 * 0.15 * t) * m)%float)
  ∧ (∀ l t m : Z, 0 ≤ l ≤ 36 → 0 ≤ t ≤ 34 → 1 ≤ m ≤ 64 →
       calculateScore (Z2F l) (Z2F t) (Z2F m) = Z2F (score_exact l t m))
  ∧ calculateScore 3 0 1 = 90%float
  ∧ calculateScore 5 0 1 = 250%float
  ∧ calculateScore 5 2 1 = 325%float
  ∧ calculateScore 5 0 2 = 500%float.
Proof.
  split; [done|]. split; [exact calculateScore_exact_in_game|].
  by repeat split.
Qed.

Lemma calculateScore_formula_witness :
  calculateScore (Z2F 5) (Z2F 2) (Z2F 1) = Z2F (score_exact 5 2 1).
Proof.
  apply (proj1 (proj2 calculateScore_formula) 5 2 1); lia.
Defined.

(** ** Turn counting *)

#[local] Arguments turn_step : simpl never.

Lemma tile_at_cons (a : Pos) (path : list Pos) (i : nat) :
  tile_at (a :: path) (S i) = tile_at path i.
Proof. done. Qed.

Lemma tile_at_app_l (path : list Pos) (x : Pos) (i : nat) :
  (i < length path)%nat → tile_at (path ++ [x]) i = tile_at path i.
Proof. intros Hi. unfold tile_at. by rewrite lookup_app_l. Qed.

Lemma tile_at_app_r (path : list Pos) (x : Pos) :
  tile_at (path ++ [x]) (length path) = x.
Proof.
  unfold tile_at. rewrite lookup_app_r by lia. by rewrite Nat.sub_diag.
Qed.

Lemma fold_turn_step_cons (a : Pos) (path : list Pos) (n : nat) :
  ∀ (i : nat) (st : Z * option Dir), (1 ≤ i)%nat →
  fold_left (turn_step (a :: path)) (seq (S i) n) st
  = fold_left (turn_step path) (seq i n) st.
Proof.
  induction n as [|n IH]; intros i st Hi; [done|].
  cbn [seq fold_left]. rewrite IH by lia. f_equal.
  unfold turn_step. destruct st as [turns lastDir].
  replace (S i - 1)%nat with (S (i - 1)) by lia.
  by rewrite !tile_at_cons.
Qed.

Lemma turn_step_at (path : list Pos) (i : nat) (p q : Pos) (turns : Z)
    (lastDir : option Dir) :
  path !! (i - 1)%nat = Some p → path !! i = Some q →
  turn_step path (turns, lastDir) i
  = (if bool_decide (lastDir ≠ None ∧ Some (step_dir p q) ≠ lastDir)
     then turns + 1 else turns,
     Some (step_dir p q)).
Proof.
  intros Hp Hq. unfold turn_step, tile_at. by rewrite Hp, Hq.
Qed.

Lemma fold_turn_step_changes (path : list Pos) :
  ∀ (p : Pos) (d : Dir) (turns : Z),
  fold_left (turn_step (p :: path)) (seq 1 (length path)) (turns, Some d)
  = (turns + changes_after d (p :: path), Some (final_dir d (p :: path))).
Proof.
  induction path as [|q rest IH]; intros p d turns.
  - simpl. f_equal. lia.
  - cbn [length seq fold_left]. rewrite fold_turn_step_cons by lia.
    rewrite (turn_step_at _ 1 p q) by done. rewrite IH.
    cbn [changes_after final_dir].
    f_equal. destruct (decide (step_dir p q = d)) as [->|Hne].
    + rewrite bool_decide_eq_false_2 by (intros [_ H]; by apply H).
      rewrite bool_decide_eq_false_2 by (intros H; by apply H). lia.
    + rewrite bool_decide_eq_true_2 by (split; [done|congruence]).
      rewrite bool_decide_eq_true_2 by done. lia.
Qed.

(** The loop of updateTurnCount computes the number of direction changes
    and the direction of the last step. *)
Lemma fold_turn_step_spec (path : list Pos) :
  fold_left (turn_step path) (seq 1 (length path - 1)) (0, None)
  = (direction_changes path, last_step path).
Proof.
  destruct path as [|p [|q rest]]; [done..|].
  cbn [length Nat.sub seq fold_left]. rewrite fold_turn_step_cons by lia.
  rewrite (turn_step_at _ 1 p q) by done.
  rewrite bool_decide_eq_false_2 by tauto.
  rewrite fold_turn_step_changes. by rewrite Z.add_0_l.
Qed.

(** ** The path of a drag *)

Lemma indexOf_range (l : list Pos) (x : Pos) :
  indexOf l x = -1 ∨ 0 ≤ indexOf l x < Z.of_nat (length l).
Proof.
  induction l as [|y l IH]; [by left|]. cbn [indexOf length].
  case_bool_decide; [right; lia|]. case_bool_decide; [by left|right; lia].
Qed.

Lemma indexOf_lookup (l : list Pos) (x : Pos) :
  0 ≤ indexOf l x → l !! Z.to_nat (indexOf l x) = Some x.
Proof.
  induction l as [|y l IH]; cbn [indexOf]; [lia|].
  case_bool_decide as Hxy; [by subst|]. case_bool_decide as Hi; [lia|].
  intros _. replace (Z.to_nat (indexOf l x + 1)) with (S (Z.to_nat (indexOf l x)))
    by lia.
  apply IH. lia.
Qed.

Lemma indexOf_not_elem (l : list Pos) (x : Pos) : x ∉ l → indexOf l x = -1.
Proof.
  intros Hx. destruct (indexOf_range l x) as [|Hr]; [done|].
  exfalso. apply Hx. apply list_elem_of_lookup. eexists.
  apply indexOf_lookup. lia.
Qed.


Lemma length_removelast (l : list Pos) :
  length (removelast l) = (length l - 1)%nat.
Proof.
  induction l as [|x [|y l] IH]; [done..|]. cbn [removelast length] in *. lia.
Qed.

Lemma removelast_lookup (l : list Pos) (i : nat) :
  (i < length l - 1)%nat → removelast l !! i = l !! i.
Proof.
  revert i. induction l as [|x [|y l] IH]; intros i Hi; [simpl in Hi; lia..|].
  destruct i as [|i]; [done|]. cbn [removelast]. rewrite !lookup_cons.
  apply IH. simpl in *. lia.
Qed.

Lemma indexOf_elem (l : list Pos) (x : Pos) : x ∈ l → 0 ≤ indexOf l x.
Proof.
  intros Hx. destruct (indexOf_range l x) as [Hneg|]; [|lia]. exfalso.
  induction l as [|y l IH]; [by apply elem_of_nil in Hx|].
  cbn [indexOf] in Hneg. case_bool_decide as Hxy; [lia|].
  apply elem_of_cons in Hx as [->|Hx]; [done|].
  pose proof (indexOf_range l x). case_bool_decide; [|lia]. apply IH; [done|lia].
Qed.

Lemma removelast_snoc (l : list Pos) :
  l ≠ [] → ∃ x, l = removelast l ++ [x] ∧ last l = Some x.
Proof.
  induction l as [|y [|z l] IH]; intros Hne; [done|by exists y|].
  destruct IH as (x & Heq & Hlast); [done|]. exists x.
  split; [|done]. cbn [removelast] in *. by rewrite <- app_comm_cons, <- Heq.
Qed.

(** *** Turn count bookkeeping *)

Lemma updateTurnCount_consistent (g : Game) :
  selectedPath (sel g) ≠ [] → turn_consistent (sel (updateTurnCount g)).
Proof.
  intros Hne. unfold updateTurnCount, turn_consistent.
  destruct (fold_left _ _ _) as [turns lastDir] eqn:Hfold. simpl.
  split; [done|]. split; [done|]. by destruct (tile_at _ _).
Qed.


Lemma startSelection_consistent (g : Game) (tile : Pos) :
  0 < timeLeft (round g) → turn_consistent (sel (startSelection g tile)).
Proof.
  intros Ht. unfold startSelection. rewrite bool_decide_eq_false_2 by lia.
  destruct tile as [r c]. by repeat split.
Qed.

Lemma handleEnter_consistent (g : Game) (tile : Pos) :
  turn_consistent (sel g) → turn_consistent (sel (handleEnter g tile)).
Proof.
  intros Hcons. unfold handleEnter.
  destruct (isDrawing (sel g)); [|done]. cbn [negb]. destruct tile as [r c].
  case_bool_decide as Hcol; [done|].
  case_bool_decide as Hidx.
  { case_bool_decide as Hback; [|done].
    apply updateTurnCount_consistent. cbn [pop_path sel selectedPath].
    pose proof (indexOf_range (selectedPath (sel g)) (r, c)).
    intros Hnil. apply (f_equal length) in Hnil.
    rewrite length_removelast in Hnil. simpl in Hnil. lia. }
  case_bool_decide as Hadj; [done|].
  destruct Hcons as (Hne & Hfold & Hlast).
  set (path := selectedPath (sel g)) in *.
  assert (0 < length path)%nat as Hlen by (destruct path; [done|simpl; lia]).
  unfold turn_consistent. cbn [sel selectedPath turnCount lastDirection lastRow lastCol].
  split; [by destruct path|]. rewrite length_app. cbn [length].
  replace (length path + 1 - 1)%nat with (length path) by lia.
  split; [|apply tile_at_app_r].
  replace (length path) with (S (length path - 1)) at 1 by lia.
  rewrite seq_S, fold_left_app. cbn [fold_left].
  replace (1 + (length path - 1))%nat with (length path) by lia.
  assert (fold_left (turn_step (path ++ [(r, c)])) (seq 1 (length path - 1)) (0, None)
          = fold_left (turn_step path) (seq 1 (length path - 1)) (0, None)) as ->.
  { assert (∀ n i st, (i + n ≤ length path)%nat → (1 ≤ i)%nat →
              fold_left (turn_step (path ++ [(r, c)])) (seq i n) st
              = fold_left (turn_step path) (seq i n) st) as Hext.
    { induction n as [|n IH]; intros i st Hi Hi1; [done|].
      cbn [seq fold_left]. rewrite IH by lia. f_equal.
      unfold turn_step. by rewrite !tile_at_app_l by lia. }
    apply Hext; lia. }
  rewrite Hfold. unfold turn_step.
  rewrite (tile_at_app_l path (r, c) (length path - 1)) by lia.
  by rewrite tile_at_app_r, Hlast.
Qed.




Lemma path_indexOf_range (d : nat) (l : list Pos) (x : Pos) :
  path_indexOf d l x = -1
  ∨ Z.of_nat d ≤ path_indexOf d l x < Z.of_nat (length l).
Proof.
  unfold path_indexOf. destruct (indexOf_range (drop d l) x) as [Hneg|Hr].
  - left. by rewrite Hneg.
  - right. rewrite bool_decide_eq_false_2 by lia.
    rewrite length_drop in Hr. lia.
Qed.

Lemma handleEnter_backtrack_consistent (g : Game) (tile : Pos) :
  (length (selectedPath (sel (handleEnter g tile)))
   < length (selectedPath (sel g)))%nat →
  turn_consistent (sel (handleEnter g tile)).
Proof.
  unfold handleEnter. destruct (negb (isDrawing (sel g))); [lia|].
  destruct tile as [r c].
  case_bool_decide as Hcol; [lia|].
  case_bool_decide as Hidx.
  - case_bool_decide as Hback; [|lia]. intros _.
    apply updateTurnCount_consistent. cbn [pop_path sel selectedPath].
    intros Hnil. apply (f_equal length) in Hnil.
    rewrite length_removelast in Hnil. simpl in Hnil. lia.
  - case_bool_decide as Hadj; [lia|].
    cbn [sel selectedPath]. rewrite length_app. simpl. lia.
Qed.

Lemma startGame_sel (fuel : nat) (src : nat → Q) (k : nat) (g g' : Game) (k' : nat) :
  startGame fuel src k g = Some (g', k') →
  isDrawing (sel g') = isDrawing (sel g)
  ∧ selectedPath (sel g') = selectedPath (sel g)
  ∧ detached (sel g') = length (selectedPath (sel g))
  ∧ currentColour (sel g') = currentColour (sel g)
  ∧ (lastRow (sel g'), lastCol (sel g')) = (lastRow (sel g), lastCol (sel g))
  ∧ lastDirection (sel g') = lastDirection (sel g)
  ∧ turnCount (sel g') = 0.
Proof.
  unfold startGame. destruct (initBoard src k) as [b k1].
  destruct (hasAvailableMoves b) as [[|]|]; cbn [mbind option_bind]; [| |done].
  - by intros [= <- _].
  - destruct (shuffleBoard fuel src k1 b) as [[[b2 n] k2]|];
      cbn [mbind option_bind]; [|done].
    by intros [= <- _].
Qed.

Lemma startGame_consistent (fuel : nat) (src : nat → Q) (k : nat)
    (g g' : Game) (k' : nat) :
  turn_consistent (sel g) →
  direction_changes (selectedPath (sel g)) = 0 →
  startGame fuel src k g = Some (g', k') →
  turn_consistent (sel g').
Proof.
  intros (Hne & Hfold & Hlast) Hstraight Hstart.
  apply startGame_sel in Hstart as (_ & Hpath & _ & _ & Hl & Hdir & Hturn).
  unfold turn_consistent. rewrite Hpath, Hturn, Hdir.
  injection Hl as -> ->.
  split; [done|]. split; [|done].
  rewrite Hfold. f_equal.
  rewrite fold_turn_step_spec in Hfold. injection Hfold as <- _. done.
Qed.






(** *** The Selecting state *)

Lemma adjacent_sym (p q : Pos) : adjacent p q → adjacent q p.
Proof. unfold adjacent. lia. Qed.


Lemma path_indexOf_not_elem (d : nat) (l : list Pos) (x : Pos) :
  x ∉ drop d l → path_indexOf d l x = -1.
Proof. intros Hx. unfold path_indexOf. by rewrite indexOf_not_elem. Qed.


Lemma path_indexOf_neg (d : nat) (l : list Pos) (x : Pos) :
  ¬ 0 ≤ path_indexOf d l x → x ∉ drop d l.
Proof.
  intros Hneg Hx. apply Hneg. unfold path_indexOf.
  pose proof (indexOf_elem (drop d l) x Hx).
  rewrite bool_decide_eq_false_2 by lia. lia.
Qed.








(** ** Commit and abandon *)

Lemma clear_cells_spec (path : list Pos) :
  ∀ b : Board, grid6 b → Forall inb path →
  grid6 (clear_cells b path)
  ∧ (∀ p, p ∈ path → cell_at (clear_cells b path) p.1 p.2 = Empty)
  ∧ (∀ p, p ∉ path → cell_at (clear_cells b path) p.1 p.2 = cell_at b p.1 p.2).
Proof.
  induction path as [|[r c] path IH]; intros b Hg Hin.
  - split; [done|]. split; [|done]. intros p Hp. by apply elem_of_nil in Hp.
  - apply Forall_cons in Hin as [Hrc Hin]. unfold clear_cells. cbn [fold_left].
    fold (clear_cells (set2 b r c Empty) path).
    destruct (IH (set2 b r c Empty)) as (Hg' & Hin' & Hout');
      [by apply grid6_set2|done|].
    split; [done|]. split.
    + intros p Hp. destruct (decide (p ∈ path)) as [Hpp|Hpp]; [by apply Hin'|].
      apply elem_of_cons in Hp as [->|Hp]; [|done].
      rewrite Hout' by done. by apply cell_at_set2_eq.
    + intros p Hp. apply not_elem_of_cons in Hp as [Hne Hp].
      rewrite Hout' by done. apply cell_at_set2_ne. destruct p. simpl. congruence.
Qed.

(** C6. finishSelection in the Selecting state commits exactly when the
    path has at least 3 cells: it then adds
    calculateScore(length, turnCount, chainCount) to the score and sets the
    cells of the path, and no others, to Empty; otherwise it leaves the
    score, the other round variables and the whole grid as they are.  In
    both cases the drag is over and the path variables are cleared: the path
    is empty, the active colour and the last direction are null, the turn
    count is 0; [lastRow] and [lastCol] are left as they are. *)
Theorem finishSelection_commit_or_abandon (g : Game) :
  isDrawing (sel g) = true → grid6 (board g) →
  Forall inb (selectedPath (sel g)) →
  let path := selectedPath (sel g) in
  let g' := finishSelection g in
  (isDrawing (sel g') = false
   ∧ selectedPath (sel g') = []
   ∧ detached (sel g') = 0%nat
   ∧ currentColour (sel g') = Empty
   ∧ lastDirection (sel g') = None
   ∧ turnCount (sel g') = 0
   ∧ lastRow (sel g') = lastRow (sel g)
   ∧ lastCol (sel g') = lastCol (sel g))
  ∧ ((3 ≤ length path)%nat →
       score (round g')
       = (score (round g)
          + calculateScore (Z2F (Z.of_nat (length path)))
                           (Z2F (turnCount (sel g)))
                           (Z2F (chainCount (round g))))%float
       ∧ (∀ p, p ∈ path → cell_at (board g') p.1 p.2 = Empty)
       ∧ (∀ p, p ∉ path → cell_at (board g') p.1 p.2 = cell_at (board g) p.1 p.2))
  ∧ ((length path < 3)%nat → board g' = board g ∧ round g' = round g).
Proof.
  intros Hdraw Hg Hin path g'. subst g'. unfold finishSelection.
  rewrite Hdraw. cbn [negb]. fold path.
  destruct (clear_cells_spec path (board g) Hg Hin) as (_ & Hclr & Hkeep).
  case_bool_decide as Hlen.
  - split; [done|]. split; [|lia]. intros _. by split.
  - split; [done|]. split; [lia|]. by intros _.
Qed.

Lemma finishSelection_commit_or_abandon_witness :
  score (round (finishSelection last_second_drag)) = 90%float
  ∧ cell_at (board (finishSelection last_second_drag)) 0 1 = Empty
  ∧ cell_at (board (finishSelection last_second_drag)) 1 1 = Tile red
  ∧ isDrawing (sel (finishSelection last_second_drag)) = false
  ∧ selectedPath (sel (finishSelection last_second_drag)) = [].
Proof.
  destruct (finishSelection_commit_or_abandon last_second_drag)
    as ((Hidle & Hpath & _) & Hcommit & _).
  - reflexivity.
  - solve_grid.
  - repeat (apply Forall_cons_2; [by vm_compute|]). apply Forall_nil_2.
  - destruct Hcommit as (Hscore & Hclr & Hkeep); [vm_compute; lia|].
    split; [rewrite Hscore; reflexivity|]. split; [|split; [|by split]].
    + apply (Hclr (0, 1)). by repeat constructor.
    + transitivity (cell_at (board last_second_drag) 1 1); [|reflexivity].
      apply (Hkeep (1, 1)).
      intros Hp. repeat (apply elem_of_cons in Hp as [[=]|Hp]).
      by apply elem_of_nil in Hp.
Defined.

(** ** Calls in an invalid state *)

(** startSelection has no [isDrawing] guard: a begin during a drag throws
    the path away and starts a new one, so it is not a no-op. *)
Lemma startSelection_restarts_drag :
  let g := run (fresh_game (uniform_grid red))
               [PointerDown (0, 0); PointerMove (0, 1)] in
  isDrawing (sel g) = true
  ∧ selectedPath (sel g) = [(0, 0); (0, 1)]
  ∧ selectedPath (sel (startSelection g (3, 3))) = [(3, 3)]
  ∧ startSelection g (3, 3) ≠ g
  ∧ dispatch g (TouchStart (3, 3)) ≠ g.
Proof.
  split; [done|]. split; [done|]. split; [done|].
  split; intros H; apply (f_equal (λ g, selectedPath (sel g))) in H;
    by vm_compute in H.
Qed.

(** C8 (amended). extend and end while Idle change nothing, and begin
    after the round clock has expired changes nothing.  begin during a drag
    is not a no-op: it replaces the selection by a new one-cell selection at
    the given cell and leaves the board and the round variables alone;
    repeating it at the same cell changes nothing further.  There is one set
    of path variables, so never more than one active selection. *)
Theorem invalid_state_calls :
  (∀ g tile, isDrawing (sel g) = false →
     handleEnter g tile = g ∧ finishSelection g = g
     ∧ dispatch g (PointerMove tile) = g ∧ dispatch g (TouchMove tile) = g
     ∧ dispatch g PointerUp = g ∧ dispatch g TouchEnd = g)
  ∧ (∀ g tile, timeLeft (round g) ≤ 0 →
     startSelection g tile = g
     ∧ dispatch g (PointerDown tile) = g ∧ dispatch g (TouchStart tile) = g)
  ∧ (∀ g tile, 0 < timeLeft (round g) →
     let g' := startSelection g tile in
     board g' = board g ∧ round g' = round g
     ∧ isDrawing (sel g') = true
     ∧ selectedPath (sel g') = [tile]
     ∧ currentColour (sel g') = cell_at (board g) tile.1 tile.2
     ∧ turnCount (sel g') = 0
     ∧ startSelection g' tile = g').
Proof.
  split; [|split].
  - intros g tile Hidle.
    unfold dispatch, on_board, pointermove, touchmove, handlePointerEnd, touchend,
      handleEnter, finishSelection.
    rewrite Hidle. cbn [negb]. by destruct (pointerEvents (round g)).
  - intros g tile Ht.
    unfold dispatch, on_board, pointerdown, touchstart, startSelection.
    rewrite bool_decide_eq_true_2 by done.
    by destruct (pointerEvents (round g)).
  - intros g tile Ht. cbn zeta. unfold startSelection.
    rewrite bool_decide_eq_false_2 by lia. destruct tile as [r c].
    cbn [board round sel isDrawing selectedPath currentColour turnCount fst snd].
    by rewrite bool_decide_eq_false_2 by lia.
Qed.

Lemma invalid_state_calls_witness :
  let g := fresh_game (uniform_grid red) in
  handleEnter g (0, 0) = g ∧ finishSelection g = g
  ∧ selectedPath (sel (startSelection g (2, 2))) = [(2, 2)].
Proof.
  intros g.
  destruct (proj1 invalid_state_calls g (0, 0)) as (H1 & H2 & _); [done|].
  destruct (proj2 (proj2 invalid_state_calls) g (2, 2)) as (_ & _ & _ & H3 & _);
    [done|].
  by split; [|split].
Defined.

(** ** The end of the round *)

(** C9 (code defect).  endGame stops the interval and turns off the pointer
    events of the board, but it does not end a drag, and finishSelection does not look at
    [timeLeft]: a drag that is active when the clock reaches 0 is still
    committed by the pointerup listener of the document, which changes the
    score and the grid of the ended round. *)
Theorem commit_after_round_end :
  let ended := dispatch last_second_drag TimerTick in
  let after := dispatch ended PointerUp in
  timeLeft (round ended) = 0
  ∧ timerRunning (round ended) = false
  ∧ pointerEvents (round ended) = false
  ∧ score (round ended) = 0%float
  ∧ cell_at (board ended) 0 0 = Tile red
  ∧ dispatch ended (PointerDown (3, 3)) = ended
  ∧ score (round after) = 90%float
  ∧ cell_at (board after) 0 0 = Empty
  ∧ cell_at (board after) 0 1 = Empty
  ∧ cell_at (board after) 0 2 = Empty
  ∧ pendingRefills (round after) = 1%nat.
Proof. by vm_compute. Qed.

(** * Further properties of the engine *)

(** ** The path stays simple and contiguous *)

Lemma startSelection_selecting (g : Game) (tile : Pos) :
  0 < timeLeft (round g) → selecting (startSelection g tile).
Proof.
  intros Ht. unfold startSelection. rewrite bool_decide_eq_false_2 by lia.
  destruct tile as [r c]. split; [done|]. split; [done|].
  split; [apply NoDup_singleton|]. split.
  - intros [|i] p q Hp Hq; simpl in *; done.
  - intros p Hp. by apply list_elem_of_singleton in Hp as ->.
Qed.

(** Every extend keeps the path a simple, contiguous run of cells of the
    active colour that ends at [(lastRow, lastCol)]. *)
Lemma handleEnter_detached (g : Game) (tile : Pos) :
  detached (sel (handleEnter g tile)) = detached (sel g).
Proof.
  unfold handleEnter. destruct (negb _); [done|]. destruct tile as [r c].
  repeat (case_bool_decide; try done).
  unfold updateTurnCount. by destruct (fold_left _ _ _).
Qed.

Lemma handleEnter_selecting (g : Game) (tile : Pos) :
  selecting g → detached (sel g) = 0%nat → selecting (handleEnter g tile).
Proof.
  intros Hsel Hdet. pose proof Hsel as (Hdraw & Hlast & Hnd & Hadj & Hcol).
  unfold handleEnter. rewrite Hdraw, Hdet. cbn [negb]. destruct tile as [r c].
  case_bool_decide as Hc; [done|].
  set (path := selectedPath (sel g)) in *.
  case_bool_decide as Hidx.
  - case_bool_decide as Hback; [|done].
    assert (2 ≤ length path)%nat as Hlen2 by lia.
    destruct (removelast_snoc path) as (x & Hsnoc & _);
      [by destruct path|].
    assert (removelast path ≠ []) as Hne.
    { intros Hnil. apply (f_equal length) in Hnil.
      rewrite length_removelast in Hnil. simpl in Hnil. lia. }
    unfold selecting, updateTurnCount.
    destruct (fold_left _ _ _) as [turns lastDir].
    cbn [pop_path sel board selectedPath isDrawing lastRow lastCol currentColour].
    fold path. split; [done|]. split; [|split; [|split]].
    + rewrite last_lookup. unfold tile_at.
      replace (Init.Nat.pred (length (removelast path)))
        with (length (removelast path) - 1)%nat by lia.
      destruct (removelast path !! _) as [[a b]|] eqn:Hl; [done|].
      apply lookup_ge_None in Hl. destruct (removelast path); [done|].
      simpl in Hl. lia.
    + rewrite Hsnoc in Hnd. by apply NoDup_app in Hnd as [? _].
    + intros i p q Hp Hq.
      pose proof (lookup_lt_Some _ _ _ Hq) as Hi. rewrite length_removelast in Hi.
      rewrite removelast_lookup in Hp, Hq by lia. by eapply Hadj.
    + intros p Hp. apply Hcol. rewrite Hsnoc. apply elem_of_app. by left.
  - case_bool_decide as Hd; [done|].
    unfold selecting.
    cbn [sel board selectedPath isDrawing lastRow lastCol currentColour].
    fold path. split; [done|]. split; [by rewrite last_snoc|].
    split; [|split].
    + apply NoDup_app. split; [done|]. split; [|apply NoDup_singleton].
      intros p Hp Hp'. apply list_elem_of_singleton in Hp' as ->.
      by apply path_indexOf_neg in Hidx.
    + intros i p q Hp Hq.
      destruct (decide (S i < length path)%nat) as [Hi|Hi].
      * rewrite lookup_app_l in Hp, Hq by lia. by eapply Hadj.
      * pose proof (lookup_lt_Some _ _ _ Hq) as Hi'.
        rewrite length_app in Hi'. simpl in Hi'.
        assert (S i = length path) as Hi'' by lia.
        rewrite lookup_app_l in Hp by lia.
        rewrite lookup_app_r, Hi'', Nat.sub_diag in Hq by lia.
        injection Hq as <-.
        rewrite last_lookup, <- Hi'' in Hlast. simpl in Hlast.
        rewrite Hlast in Hp. injection Hp as <-.
        unfold adjacent. simpl. lia.
    + intros p Hp. apply elem_of_app in Hp as [Hp|Hp]; [by apply Hcol|].
      by apply list_elem_of_singleton in Hp as ->.
Qed.

Lemma drag_path_invariant (g : Game) (tile : Pos) (tiles : list Pos) :
  0 < timeLeft (round g) →
  let g' := fold_left handleEnter tiles (startSelection g tile) in
  selecting g' ∧ board g' = board g ∧ round g' = round g.
Proof.
  intros Ht.
  assert (detached (sel (startSelection g tile)) = 0%nat) as Hdet.
  { unfold startSelection. rewrite bool_decide_eq_false_2 by lia.
    by destruct tile. }
  assert (selecting (startSelection g tile)
          ∧ board (startSelection g tile) = board g
          ∧ round (startSelection g tile) = round g) as Hstart.
  { split; [by apply startSelection_selecting|].
    unfold startSelection. rewrite bool_decide_eq_false_2 by lia.
    by destruct tile. }
  revert Hdet Hstart. generalize (startSelection g tile) as g0.
  induction tiles as [|t tiles IH]; intros g0 Hdet Hg0; [done|].
  cbn [fold_left]. apply IH; [by rewrite handleEnter_detached|].
  destruct Hg0 as (Hsel & Hb & Hr).
  split; [by apply handleEnter_selecting|].
  unfold handleEnter. destruct (negb _); [done|]. destruct t as [r c].
  repeat (case_bool_decide; try done).
  unfold updateTurnCount. by destruct (fold_left _ _ _).
Qed.

(** The board events of a drag never make the path leave the Selecting
    state: after a begin and any number of extends on an unchanged board the
    path is simple, contiguous and of one colour. *)
Theorem drag_keeps_path_invariant (g : Game) (tile : Pos) (tiles : list Pos) :
  0 < timeLeft (round g) →
  let g' := fold_left handleEnter tiles (startSelection g tile) in
  selecting g' ∧ board g' = board g ∧ round g' = round g.
Proof. exact (drag_path_invariant g tile tiles). Qed.

Lemma drag_keeps_path_invariant_witness :
  selecting (fold_left handleEnter [(0, 1); (1, 1); (0, 1); (5, 5)]
                       (startSelection (fresh_game (uniform_grid red)) (0, 0))).
Proof.
  apply (drag_keeps_path_invariant (fresh_game (uniform_grid red)) (0, 0)
           [(0, 1); (1, 1); (0, 1); (5, 5)]).
  reflexivity.
Defined.

(** ** Turn counts and scores of a drag *)

Lemma selection_trace_consistent (g : Game) :
  selection_trace g → turn_consistent (sel g).
Proof.
  induction 1 as [g tile Ht|g tile Hlen|g tile _ IH|g b rd _ IH
                  |g fuel src k g' k' _ IH Hstraight Hstart].
  - by apply startSelection_consistent.
  - by apply handleEnter_backtrack_consistent.
  - by apply handleEnter_consistent.
  - exact IH.
  - by eapply startGame_consistent.
Qed.

Lemma changes_after_cons (d : Dir) (p q : Pos) (rest : list Pos) :
  changes_after d (p :: q :: rest)
  = (if bool_decide (step_dir p q ≠ d) then 1 else 0)
    + changes_after (step_dir p q) (q :: rest).
Proof. done. Qed.

Lemma changes_after_bounds (path : list Pos) :
  ∀ d, 0 ≤ changes_after d path ≤ Z.of_nat (length path - 1).
Proof.
  induction path as [|p [|q rest] IH]; intros d; [simpl; lia..|].
  rewrite changes_after_cons. specialize (IH (step_dir p q)).
  cbn [length] in *. case_bool_decide; lia.
Qed.

Lemma direction_changes_bounds (path : list Pos) :
  0 ≤ direction_changes path ≤ Z.of_nat (length path - 2).
Proof.
  destruct path as [|p [|q rest]]; [simpl; lia..|].
  cbn [direction_changes]. pose proof (changes_after_bounds (q :: rest) (step_dir p q)).
  cbn [length] in *. lia.
Qed.

Lemma drag_is_trace (g : Game) (tile : Pos) (tiles : list Pos) :
  0 < timeLeft (round g) →
  selection_trace (fold_left handleEnter tiles (startSelection g tile)).
Proof.
  intros Ht.
  assert (selection_trace (startSelection g tile)) as H0 by by apply trace_begin.
  revert H0. generalize (startSelection g tile) as g0.
  induction tiles as [|t tiles IH]; intros g0 Hg0; [done|].
  cbn [fold_left]. by apply IH, trace_enter.
Qed.

Lemma handleEnter_path_cells (g : Game) (tile p : Pos) :
  p ∈ selectedPath (sel (handleEnter g tile)) →
  p = tile ∨ p ∈ selectedPath (sel g).
Proof.
  unfold handleEnter. destruct (negb _); [by right|]. destruct tile as [r c].
  case_bool_decide; [by right|]. case_bool_decide.
  - case_bool_decide; [|by right].
    unfold updateTurnCount. destruct (fold_left _ _ _).
    cbn [pop_path sel selectedPath]. intros Hp.
    destruct (removelast_snoc (selectedPath (sel g))) as (x & Heq & _).
    { intros Hnil. rewrite Hnil in Hp. by apply elem_of_nil in Hp. }
    right. rewrite Heq. apply elem_of_app. by left.
  - case_bool_decide; [by right|]. cbn [sel selectedPath]. intros Hp.
    apply elem_of_app in Hp as [Hp|Hp]; [by right|left].
    by apply list_elem_of_singleton in Hp.
Qed.

(** A drag over cells of the grid selects at most 36 cells and counts at
    most 34 turns, between 0 and the path length less 2; with a chain
    multiplier up to 64 the points its commit would add are the exactly
    rounded value of the score formula. *)
Theorem drag_score_is_exact (g : Game) (tile : Pos) (tiles : list Pos) :
  0 < timeLeft (round g) → Forall inb (tile :: tiles) →
  1 ≤ chainCount (round g) ≤ 64 →
  let g' := fold_left handleEnter tiles (startSelection g tile) in
  let len := Z.of_nat (length (selectedPath (sel g'))) in
  1 ≤ len ≤ 36
  ∧ 0 ≤ turnCount (sel g') ≤ Z.max 0 (len - 2)
  ∧ calculateScore (Z2F len) (Z2F (turnCount (sel g'))) (Z2F (chainCount (round g')))
    = Z2F (score_exact len (turnCount (sel g')) (chainCount (round g'))).
Proof.
  intros Ht Hin Hchain g' len.
  destruct (drag_path_invariant g tile tiles Ht)
    as ((_ & Hlast & Hnd & _) & _ & Hround).
  fold g' in Hlast, Hnd, Hround.
  pose proof (selection_trace_consistent g' (drag_is_trace g tile tiles Ht))
    as (Hne & Hfold & _).
  rewrite fold_turn_step_spec in Hfold. injection Hfold as Hturn _.
  pose proof (direction_changes_bounds (selectedPath (sel g'))) as Hb.
  rewrite Hturn in Hb.
  assert (Forall inb (selectedPath (sel g'))) as Hcells.
  { subst g'. clear -Hin Ht. apply Forall_cons in Hin as [Htile Htiles].
    assert (Forall inb (selectedPath (sel (startSelection g tile)))) as H0.
    { unfold startSelection. rewrite bool_decide_eq_false_2 by lia.
      destruct tile. by apply Forall_singleton. }
    revert H0. generalize (startSelection g tile) as g0.
    induction tiles as [|t tiles IH]; intros g0 Hg0; [done|].
    apply Forall_cons in Htiles as [Ht0 Htiles].
    cbn [fold_left]. apply IH; [done|]. apply Forall_forall. intros p Hp.
    apply handleEnter_path_cells in Hp as [->|Hp]; [done|].
    by rewrite Forall_forall in Hg0; apply Hg0. }
  pose proof (NoDup_inb_length _ Hnd Hcells) as Hlen.
  change (Z.to_nat (ROWS * COLS)) with 36%nat in Hlen.
  assert (1 ≤ len ≤ 36) as Hlen'.
  { subst len. destruct (selectedPath (sel g')); [done|]. simpl in *. lia. }
  split; [done|]. split; [subst len; lia|].
  apply calculateScore_exact_in_game; [lia| |by rewrite Hround].
  subst len. lia.
Qed.

Lemma drag_score_is_exact_witness :
  let g' := fold_left handleEnter [(0, 1); (1, 1)]
                      (startSelection (fresh_game (uniform_grid red)) (0, 0)) in
  calculateScore (Z2F 3) (Z2F (turnCount (sel g'))) (Z2F 1)
  = Z2F (score_exact 3 (turnCount (sel g')) 1).
Proof.
  intros g'.
  destruct (drag_score_is_exact (fresh_game (uniform_grid red)) (0, 0)
              [(0, 1); (1, 1)]) as (_ & _ & Hexact).
  - reflexivity.
  - repeat (apply Forall_cons_2; [by vm_compute|]). apply Forall_nil_2.
  - by vm_compute.
  - exact Hexact.
Defined.

Lemma handleEnter_append_facts (g : Game) (tile : Pos) :
  selecting g → turn_consistent (sel g) →
  cell_at (board g) tile.1 tile.2 = currentColour (sel g) →
  tile ∉ selectedPath (sel g) →
  adjacent tile (lastRow (sel g), lastCol (sel g)) →
  let path := selectedPath (sel g) in
  let step := step_dir (lastRow (sel g), lastCol (sel g)) tile in
  let g' := handleEnter g tile in
  selectedPath (sel g') = path ++ [tile]
  ∧ (lastRow (sel g'), lastCol (sel g')) = tile
  ∧ lastDirection (sel g') = Some step
  ∧ turnCount (sel g')
    = turnCount (sel g)
      + (if bool_decide (2 ≤ length path ∧ last_step path ≠ Some step)%nat
         then 1 else 0)
  ∧ turnCount (sel g') = direction_changes (path ++ [tile])
  ∧ board g' = board g ∧ round g' = round g.
Proof.
  intros Hsel Hcons Hcol Hnew Hadj path step g'.
  pose proof (handleEnter_consistent g tile Hcons) as (_ & Hfold' & _).
  fold g' in Hfold'. rewrite fold_turn_step_spec in Hfold'.
  injection Hfold' as Hturn' _.
  destruct Hcons as (_ & Hfold & _). rewrite fold_turn_step_spec in Hfold.
  injection Hfold as Hturn Hdir. fold path in Hturn, Hdir.
  destruct Hsel as (Hdraw & _).
  assert (g' = {| board := board g;
                  sel := {| isDrawing := isDrawing (sel g);
                            detached := detached (sel g);
                            selectedPath := path ++ [tile];
                            currentColour := currentColour (sel g);
                            lastRow := tile.1;
                            lastCol := tile.2;
                            lastDirection := Some step;
                            turnCount :=
                              if bool_decide (lastDirection (sel g) ≠ None
                                              ∧ Some step ≠ lastDirection (sel g))
                              then turnCount (sel g) + 1 else turnCount (sel g) |};
                  round := round g |}) as Hg'.
  { subst g'. unfold handleEnter. rewrite Hdraw. cbn [negb].
    destruct tile as [r c]. cbn [fst snd] in *.
    rewrite bool_decide_eq_false_2 by (intros H; by apply H).
    rewrite path_indexOf_not_elem
      by (intros Hin; by apply Hnew, (subseteq_drop (detached (sel g)))).
    rewrite bool_decide_eq_false_2 by lia.
    by rewrite bool_decide_eq_false_2 by (intros H; by apply H). }
  rewrite Hg' in Hturn' |- *. cbn [sel selectedPath lastRow lastCol lastDirection
    turnCount board round] in *.
  split; [done|]. split; [by destruct tile|]. split; [done|].
  split; [|by rewrite Hturn'].
  rewrite <- Hdir.
  assert ((last_step path ≠ None ∧ Some step ≠ last_step path)
          ↔ (2 ≤ length path)%nat ∧ last_step path ≠ Some step) as Hiff.
  { destruct path as [|p [|q rest]]; cbn [last_step length].
    - split; intros [? ?]; [done|lia].
    - split; intros [? ?]; [done|lia].
    - split; intros [? ?]; (split; [first [done|lia]|congruence]). }
  destruct (decide (last_step path ≠ None ∧ Some step ≠ last_step path)) as [H1|H1].
  - rewrite (bool_decide_eq_true_2 _ H1).
    rewrite bool_decide_eq_true_2 by by apply Hiff. lia.
  - rewrite (bool_decide_eq_false_2 _ H1).
    rewrite bool_decide_eq_false_2 by (intros H2; by apply H1, Hiff). lia.
Qed.

(** Appending.  In the Selecting state, entering a cell of the active colour
    that is not on the path and is adjacent to its last cell appends it; the
    turn count grows by one exactly when the path had a last step and the
    new step has another direction, and nothing but the path variables
    changes. *)
Theorem handleEnter_appends (g : Game) (tile : Pos) :
  selecting g → turn_consistent (sel g) →
  cell_at (board g) tile.1 tile.2 = currentColour (sel g) →
  tile ∉ selectedPath (sel g) →
  adjacent tile (lastRow (sel g), lastCol (sel g)) →
  let path := selectedPath (sel g) in
  let step := step_dir (lastRow (sel g), lastCol (sel g)) tile in
  let g' := handleEnter g tile in
  selectedPath (sel g') = path ++ [tile]
  ∧ (lastRow (sel g'), lastCol (sel g')) = tile
  ∧ lastDirection (sel g') = Some step
  ∧ turnCount (sel g')
    = turnCount (sel g)
      + (if bool_decide (2 ≤ length path ∧ last_step path ≠ Some step)%nat
         then 1 else 0)
  ∧ turnCount (sel g') = direction_changes (path ++ [tile])
  ∧ board g' = board g ∧ round g' = round g.
Proof. exact (handleEnter_append_facts g tile). Qed.

Lemma handleEnter_appends_witness :
  let g := fold_left handleEnter [(0, 1)]
                     (startSelection (fresh_game (uniform_grid red)) (0, 0)) in
  selectedPath (sel (handleEnter g (1, 1))) = [(0, 0); (0, 1); (1, 1)]
  ∧ turnCount (sel (handleEnter g (1, 1))) = 1.
Proof.
  intros g.
  destruct (handleEnter_appends g (1, 1)) as (Hpath & _ & _ & Hturn & _).
  - apply (drag_path_invariant (fresh_game (uniform_grid red)) (0, 0) [(0, 1)]).
    reflexivity.
  - apply selection_trace_consistent.
    apply (drag_is_trace (fresh_game (uniform_grid red)) (0, 0) [(0, 1)]).
    reflexivity.
  - reflexivity.
  - intros Hp. repeat (apply elem_of_cons in Hp as [[=]|Hp]).
    by apply elem_of_nil in Hp.
  - by vm_compute.
  - split; [exact Hpath|exact Hturn].
Defined.

(** ** Filling and refilling *)

Lemma playable_cells (b : Board) (p : Pos) :
  playable_grid b → inb p → cell_at b p.1 p.2 ≠ Undef.
Proof.
  intros [[Hlen Hrows] Hcells] [Hr Hc]. destruct p as [r c]. simpl in *.
  unfold ROWS, COLS in *.
  destruct (lookup_lt_is_Some_2 b (Z.to_nat r)) as [row Hrow]; [lia|].
  rewrite Forall_lookup in Hrows. pose proof (Hrows _ _ Hrow) as Hrl.
  destruct (lookup_lt_is_Some_2 row (Z.to_nat c)) as [v Hv]; [lia|].
  unfold cell_at, at2, zlookup. rewrite !bool_decide_eq_true_2 by lia.
  rewrite Hrow. simpl. rewrite Hv. simpl.
  rewrite Forall_lookup in Hcells. specialize (Hcells _ _ Hrow).
  rewrite Forall_lookup in Hcells. by apply (Hcells _ _ Hv).
Qed.

Lemma playable_grid_cells (b : Board) :
  grid6 b → (∀ p, inb p → cell_at b p.1 p.2 ≠ Undef) → playable_grid b.
Proof.
  intros Hg Hcells. split; [done|]. destruct Hg as [Hlen Hrows].
  rewrite Forall_lookup in Hrows.
  apply Forall_lookup. intros i row Hrow. apply Forall_lookup. intros j v Hv.
  pose proof (lookup_lt_Some _ _ _ Hrow) as Hi.
  pose proof (lookup_lt_Some _ _ _ Hv) as Hj.
  rewrite (Hrows _ _ Hrow) in Hj.
  specialize (Hcells (Z.of_nat i, Z.of_nat j)). simpl in Hcells.
  unfold cell_at, at2, zlookup in Hcells.
  rewrite !bool_decide_eq_true_2, !Nat2Z.id, Hrow in Hcells by lia.
  simpl in Hcells. rewrite Hv in Hcells.
  apply Hcells. unfold inb, ROWS, COLS in *. simpl. lia.
Qed.

Lemma full_grid_tiles (b : Board) (p : Pos) :
  full_grid b → inb p → is_tile (cell_at b p.1 p.2).
Proof.
  intros [[Hlen Hrows] Hcells] [Hr Hc]. destruct p as [r c]. simpl in *.
  unfold ROWS, COLS in *.
  destruct (lookup_lt_is_Some_2 b (Z.to_nat r)) as [row Hrow]; [lia|].
  rewrite Forall_lookup in Hrows. pose proof (Hrows _ _ Hrow) as Hrl.
  destruct (lookup_lt_is_Some_2 row (Z.to_nat c)) as [v Hv]; [lia|].
  unfold cell_at, at2, zlookup. rewrite !bool_decide_eq_true_2 by lia.
  rewrite Hrow. simpl. rewrite Hv. simpl.
  rewrite Forall_lookup in Hcells. specialize (Hcells _ _ Hrow).
  rewrite Forall_lookup in Hcells. by apply (Hcells _ _ Hv).
Qed.

Lemma empty_cells_ext (b1 b2 : Board) (cells : list Pos) :
  (∀ p, p ∈ cells → cell_at b1 p.1 p.2 = cell_at b2 p.1 p.2) →
  empty_cells b1 cells = empty_cells b2 cells.
Proof.
  unfold empty_cells. induction cells as [|p cells IH]; intros Hsame; [done|].
  rewrite !filter_cons, (Hsame p) by apply list_elem_of_here.
  rewrite IH; [done|]. intros q Hq. by apply Hsame, list_elem_of_further.
Qed.

Lemma fill_cells (src : nat → Q) (cells : list Pos) :
  random_source src →
  ∀ (b : Board) (k : nat) (b' : Board) (k' : nat),
  grid6 b → Forall inb cells → NoDup cells →
  fold_left
    (λ '(b, k) '(r, c),
       if bool_decide (cell_at b r c = Empty)
       then (set2 b r c (random_colour src k), S k)
       else (b, k))
    cells (b, k) = (b', k') →
  grid6 b'
  ∧ k' = (k + length (empty_cells b cells))%nat
  ∧ (∀ p, p ∈ cells → cell_at b p.1 p.2 = Empty → is_tile (cell_at b' p.1 p.2))
  ∧ (∀ p, p ∉ cells ∨ cell_at b p.1 p.2 ≠ Empty →
          cell_at b' p.1 p.2 = cell_at b p.1 p.2).
Proof.
  intros Hsrc. induction cells as [|[r c] cells IH];
    intros b k b' k' Hg Hin Hnd Hfold.
  - injection Hfold as <- <-. split; [done|]. split; [simpl; lia|].
    split; [|done]. intros p Hp. by apply elem_of_nil in Hp.
  - apply Forall_cons in Hin as [Hrc Hin]. apply NoDup_cons in Hnd as [Hnew Hnd].
    cbn [fold_left] in Hfold. unfold empty_cells. rewrite filter_cons. cbn [fst snd].
    fold (empty_cells b cells).
    destruct (decide (cell_at b r c = Empty)) as [He|He].
    + rewrite bool_decide_eq_true_2 in Hfold by done.
      apply IH in Hfold as (Hg' & -> & Hfill & Hkeep);
        [|by apply grid6_set2|done|done].
      assert (∀ p, p ∈ cells →
                cell_at (set2 b r c (random_colour src k)) p.1 p.2
                = cell_at b p.1 p.2) as Hsame.
      { intros p Hp. apply cell_at_set2_ne. intros Heq.
        apply Hnew. destruct p. simpl in Heq. by rewrite Heq. }
      assert (empty_cells (set2 b r c (random_colour src k)) cells
              = empty_cells b cells) as ->.
      { by apply empty_cells_ext. }
      split; [done|]. split; [simpl; lia|]. split.
      * intros p Hp Hemp. apply elem_of_cons in Hp as [->|Hp].
        -- rewrite Hkeep by (by left). simpl. rewrite cell_at_set2_eq by done.
           by apply random_colour_tile.
        -- apply Hfill; [done|]. by rewrite Hsame.
      * intros p Hp. destruct (decide (p = (r, c))) as [->|Hne].
        { destruct Hp as [Hp|Hp]; [|done]. exfalso. apply Hp, list_elem_of_here. }
        assert (cell_at (set2 b r c (random_colour src k)) p.1 p.2
                = cell_at b p.1 p.2) as Heq.
        { apply cell_at_set2_ne. destruct p. simpl. congruence. }
        rewrite <- Heq. apply Hkeep. destruct Hp as [Hp|Hp].
        -- left. intros Hp'. apply Hp. by apply list_elem_of_further.
        -- right. by rewrite Heq.
    + rewrite bool_decide_eq_false_2 in Hfold by done.
      apply IH in Hfold as (Hg' & -> & Hfill & Hkeep); [|done..].
      split; [done|]. split; [done|]. split.
      * intros p Hp Hemp. apply elem_of_cons in Hp as [->|Hp]; [done|].
        by apply Hfill.
      * intros p Hp. apply Hkeep. destruct Hp as [Hp|Hp]; [|by right].
        left. intros Hp'. apply Hp. by apply list_elem_of_further.
Qed.

Lemma NoDup_all_cells : NoDup all_cells.
Proof. apply (bool_decide_unpack _). by vm_compute. Qed.

Lemma Forall_inb_all_cells : Forall inb all_cells.
Proof. apply Forall_forall. intros p. apply elem_of_all_cells. Qed.

Lemma fillBoard_spec (src : nat → Q) (k : nat) (b : Board) :
  random_source src → grid6 b →
  let b' := (fillBoard src k b).1 in
  grid6 b'
  ∧ (fillBoard src k b).2 = (k + count_empty b)%nat
  ∧ (∀ p, inb p → cell_at b p.1 p.2 = Empty → is_tile (cell_at b' p.1 p.2))
  ∧ (∀ p, cell_at b p.1 p.2 ≠ Empty → cell_at b' p.1 p.2 = cell_at b p.1 p.2)
  ∧ (count_empty b = 0%nat → b' = b)
  ∧ (playable_grid b → full_grid b').
Proof.
  intros Hsrc Hg b'. subst b'. unfold fillBoard.
  destruct (fold_left _ _ _) as [b' k'] eqn:Hfold. cbn [fst snd].
  apply fill_cells in Hfold as (Hg' & -> & Hfill & Hkeep);
    [|done|done|apply Forall_inb_all_cells|apply NoDup_all_cells].
  split; [done|]. split; [done|].
  split; [intros p Hp; apply Hfill; by apply elem_of_all_cells|].
  split; [intros p Hp; apply Hkeep; by right|]. split.
  - intros Hzero. apply grid6_ext; [done..|]. intros c Hc.
    unfold column. apply list_fmap_ext. intros i r Hr.
    apply lookup_seqZ in Hr as [-> Hr].
    apply (Hkeep (0 + Z.of_nat i, c)). right. intros Hemp.
    unfold count_empty in Hzero. apply length_zero_iff_nil in Hzero.
    assert ((0 + Z.of_nat i, c) ∈ empty_cells b all_cells) as Hin.
    { apply list_elem_of_filter. split; [done|]. apply elem_of_all_cells.
      unfold inb. simpl. lia. }
    rewrite Hzero in Hin. by apply elem_of_nil in Hin.
  - intros Hplay. apply full_grid_cells; [done|]. intros p Hp.
    destruct (decide (cell_at b p.1 p.2 = Empty)) as [He|He];
      [apply Hfill; [by apply elem_of_all_cells|done]|].
    rewrite Hkeep by (by right).
    pose proof (playable_cells b p Hplay Hp).
    destruct (cell_at b p.1 p.2); [done|done|by eexists].
Qed.

(** fillBoard draws one colour for each Empty cell of a 6 by 6 grid, in
    row-major order, puts a palette colour there and leaves every other cell
    as it is; on a grid without holes it does nothing. *)
Theorem fillBoard_fills_empty_cells (src : nat → Q) (k : nat) (b : Board) :
  random_source src → grid6 b →
  let b' := (fillBoard src k b).1 in
  grid6 b'
  ∧ (fillBoard src k b).2 = (k + count_empty b)%nat
  ∧ (∀ p, inb p → cell_at b p.1 p.2 = Empty → is_tile (cell_at b' p.1 p.2))
  ∧ (∀ p, cell_at b p.1 p.2 ≠ Empty → cell_at b' p.1 p.2 = cell_at b p.1 p.2)
  ∧ (count_empty b = 0%nat → b' = b)
  ∧ (playable_grid b → full_grid b').
Proof. exact (fillBoard_spec src k b). Qed.

Lemma fillBoard_fills_empty_cells_witness :
  (fillBoard checker_src 0 hole_grid).2 = 3%nat
  ∧ full_grid (fillBoard checker_src 0 hole_grid).1.
Proof.
  destruct (fillBoard_fills_empty_cells checker_src 0 hole_grid)
    as (_ & Hk & _ & _ & _ & Hfull).
  - apply checker_src_random.
  - solve_grid.
  - split; [exact Hk|]. apply Hfull. solve_grid.
Defined.

(** ** Gravity loses nothing *)

Lemma column_lookup (b : Board) (r c : Z) :
  0 ≤ r < ROWS → column b c !! Z.to_nat r = Some (cell_at b r c).
Proof.
  intros Hr. unfold column. rewrite list_lookup_fmap, lookup_seqZ_lt by lia.
  simpl. do 2 f_equal. lia.
Qed.

Lemma elem_of_column (b : Board) (c : Z) (v : Cell) :
  v ∈ column b c ↔ ∃ r, 0 ≤ r < ROWS ∧ v = cell_at b r c.
Proof.
  unfold column. rewrite list_elem_of_fmap. split.
  - intros (r & -> & Hr). apply elem_of_seqZ in Hr. exists r. split; [lia|done].
  - intros (r & Hr & ->). exists r. split; [done|]. apply elem_of_seqZ. lia.
Qed.

Lemma collapseBoard_columns (b : Board) :
  grid6 b →
  grid6 (collapseBoard b)
  ∧ ∀ c, 0 ≤ c < COLS → column (collapseBoard b) c = compact (column b c).
Proof.
  intros Hg. unfold collapseBoard.
  destruct (collapse_columns_spec b (Z.to_nat COLS) Hg) as (Hg1 & Hcol1 & _); [done|].
  by change (Z.of_nat (Z.to_nat COLS)) with COLS in *.
Qed.

Lemma compact_Permutation (col : list Cell) : compact col ≡ₚ col.
Proof.
  unfold compact.
  assert (replicate (length (filter (λ v, v = Empty) col)) Empty
          = filter (λ v, v = Empty) col) as ->.
  { induction col as [|v col IH]; [done|]. rewrite filter_cons.
    destruct (decide (v = Empty)) as [->|]; [|done]. simpl. by rewrite IH. }
  apply filter_app_complement.
Qed.

Lemma compact_no_holes (col : list Cell) : Empty ∉ col → compact col = col.
Proof.
  intros Hne. unfold compact.
  assert (filter (λ v, v = Empty) col = [] ∧ filter (λ v, v ≠ Empty) col = col)
    as [-> ->]; [|done].
  induction col as [|v col IH]; [done|].
  apply not_elem_of_cons in Hne as [Hv Hne]. destruct (IH Hne) as [IH1 IH2].
  rewrite filter_cons_False by done. rewrite filter_cons_True by done.
  by rewrite IH1, IH2.
Qed.

Lemma collapseBoard_perm_spec (b : Board) :
  grid6 b →
  grid6 (collapseBoard b)
  ∧ (∀ c, 0 ≤ c < COLS → column (collapseBoard b) c ≡ₚ column b c)
  ∧ (playable_grid b → playable_grid (collapseBoard b))
  ∧ (full_grid b → collapseBoard b = b).
Proof.
  intros Hg. destruct (collapseBoard_columns b Hg) as [Hg' Hcol].
  split; [done|]. split; [|split].
  - intros c Hc. rewrite Hcol by done. apply compact_Permutation.
  - intros Hplay. apply playable_grid_cells; [done|]. intros [r c] [Hr Hc].
    simpl in *.
    assert (cell_at (collapseBoard b) r c ∈ column b c) as Hin.
    { rewrite <- (compact_Permutation (column b c)), <- Hcol by done.
      apply elem_of_column. by exists r. }
    apply elem_of_column in Hin as (r' & Hr' & ->).
    by apply (playable_cells b (r', c)).
  - intros Hfull. apply grid6_ext; [done..|]. intros c Hc.
    rewrite Hcol by done. apply compact_no_holes.
    intros Hin. apply elem_of_column in Hin as (r & Hr & Heq).
    destruct (full_grid_tiles b (r, c) Hfull) as [col Hcolr]; [done|].
    simpl in Hcolr. congruence.
Qed.

(** collapseBoard only rearranges: each column of the result is a
    permutation of the column it came from, so no tile is lost, duplicated
    or moved to another column and the number of Empty cells is kept; a
    grid without Empty cells is returned as it is. *)
Theorem collapseBoard_permutes_columns (b : Board) :
  grid6 b →
  grid6 (collapseBoard b)
  ∧ (∀ c, 0 ≤ c < COLS → column (collapseBoard b) c ≡ₚ column b c)
  ∧ (playable_grid b → playable_grid (collapseBoard b))
  ∧ (full_grid b → collapseBoard b = b).
Proof. exact (collapseBoard_perm_spec b). Qed.

Lemma collapseBoard_permutes_columns_witness :
  column (collapseBoard hole_grid) 2 ≡ₚ column hole_grid 2
  ∧ collapseBoard (checkerboard red blue) = checkerboard red blue.
Proof.
  destruct (collapseBoard_permutes_columns hole_grid) as (_ & Hperm & _);
    [solve_grid|].
  destruct (collapseBoard_permutes_columns (checkerboard red blue))
    as (_ & _ & _ & Hid); [solve_grid|].
  split; [apply Hperm; unfold COLS; lia|apply Hid; solve_grid].
Defined.

(** ** The refill after a commit *)

Lemma shuffleBoard_loop_result (src : nat → Q) (fuel k : nat) (b : Board) :
  random_source src → grid6 b → (51 ≤ fuel)%nat →
  ∃ b' n k',
    shuffleBoard fuel src k b = Some (b', n, k')
    ∧ full_grid b'
    ∧ (1 ≤ n ≤ 51 ∧ Z.of_nat k' = Z.of_nat k + 36 * n)
    ∧ (n ≤ 50 → hasAvailableMoves b' = Some true).
Proof.
  intros Hsrc Hg Hfuel. unfold shuffleBoard.
  destruct (shuffle_loop_spec src fuel Hsrc k b 0)
    as (b' & n & k' & Hrun & Hfull & Hn & Hk & Hmove); [done|lia|lia|].
  exists b', n, k'. split; [done|]. split; [done|]. split; [lia|done].
Qed.

Lemma refilled_column (src : nat → Q) (k : nat) (b : Board) (c : Z) :
  random_source src → grid6 b → 0 ≤ c < COLS →
  let b' := (fillBoard src k (collapseBoard b)).1 in
  ∃ fresh,
    column b' c = fresh ++ filter (λ v, v ≠ Empty) (column b c)
    ∧ Forall is_tile fresh
    ∧ length fresh = length (filter (λ v, v = Empty) (column b c)).
Proof.
  intros Hsrc Hg Hc b'.
  destruct (collapseBoard_columns b Hg) as [Hg1 Hcol]. specialize (Hcol c Hc).
  destruct (fillBoard_spec src k (collapseBoard b) Hsrc Hg1)
    as (_ & _ & Hfill & Hkeep & _).
  fold b' in Hfill, Hkeep.
  set (n := length (filter (λ v, v = Empty) (column b c))) in *.
  assert (length (column b c) = Z.to_nat ROWS) as Hlen
    by (unfold column; by rewrite length_fmap, length_seqZ).
  pose proof (length_filter_split (column b c)) as Hsplit. fold n in Hsplit.
  exists (take n (column b' c)).
  assert (length (column b' c) = Z.to_nat ROWS) as Hlen'
    by (unfold column; by rewrite length_fmap, length_seqZ).
  assert (∀ i, (i < Z.to_nat ROWS)%nat →
            column b' c !! i = Some (cell_at b' (Z.of_nat i) c)
            ∧ compact (column b c) !! i
              = Some (cell_at (collapseBoard b) (Z.of_nat i) c)) as Hcells.
  { intros i Hi. rewrite <- Hcol.
    rewrite <- (Nat2Z.id i) at 1 3. split; apply column_lookup; lia. }
  split; [|split].
  - rewrite <- (take_drop n (column b' c)) at 1. f_equal.
    apply list_eq. intros i. rewrite lookup_drop.
    destruct (decide (n + i < Z.to_nat ROWS)%nat) as [Hi|Hi].
    + destruct (Hcells (n + i)%nat Hi) as [-> Hcomp].
      unfold compact in Hcomp. fold n in Hcomp.
      rewrite lookup_app_r in Hcomp by (rewrite length_replicate; lia).
      rewrite length_replicate in Hcomp.
      replace (n + i - n)%nat with i in Hcomp by lia. rewrite Hcomp. f_equal.
      apply (Hkeep (Z.of_nat (n + i), c)). simpl.
      assert (cell_at (collapseBoard b) (Z.of_nat (n + i)) c
              ∈ filter (λ v, v ≠ Empty) (column b c)) as Hin
        by (apply list_elem_of_lookup; eauto).
      by apply list_elem_of_filter in Hin as [? _].
    + rewrite lookup_ge_None_2 by lia. symmetry. apply lookup_ge_None_2. lia.
  - apply Forall_lookup. intros i v Hv.
    pose proof (lookup_lt_Some _ _ _ Hv) as Hi. rewrite length_take in Hi.
    rewrite lookup_take_lt in Hv by lia.
    destruct (Hcells i ltac:(lia)) as [Hb' Hcomp]. rewrite Hb' in Hv.
    injection Hv as <-.
    unfold compact in Hcomp. fold n in Hcomp.
    rewrite lookup_app_l in Hcomp by (rewrite length_replicate; lia).
    rewrite lookup_replicate_2 in Hcomp by lia. injection Hcomp as Hemp.
    apply (Hfill (Z.of_nat i, c)); [|done].
    unfold inb, ROWS in *. simpl. lia.
  - rewrite length_take. lia.
Qed.

Lemma refillTimeout_spec (src : nat → Q) (fuel k : nat) (g : Game) :
  random_source src → playable_grid (board g) → (51 ≤ fuel)%nat →
  let filled := fillBoard src k (collapseBoard (board g)) in
  ∃ g' k',
    refillTimeout fuel src k g = Some (g', k')
    ∧ full_grid (board g')
    ∧ sel g' = sel g
    ∧ chainCount (round g') = chainCount (round g) + 1
    ∧ score (round g') = score (round g)
    ∧ timeLeft (round g') = timeLeft (round g)
    ∧ chainTimeout (round g') = true
    ∧ (hasAvailableMoves (board g') = Some true
       ∨ Z.of_nat k' = Z.of_nat filled.2 + 36 * 51)
    ∧ (hasAvailableMoves filled.1 = Some true →
       board g' = filled.1 ∧ k' = filled.2
       ∧ ∀ c, 0 ≤ c < COLS →
           ∃ fresh,
             column (board g') c
             = fresh ++ filter (λ v, v ≠ Empty) (column (board g) c)
             ∧ Forall is_tile fresh).
Proof.
  intros Hsrc Hplay Hfuel filled. subst filled.
  destruct (collapseBoard_perm_spec (board g)) as (Hg1 & _ & Hplay1 & _);
    [by destruct Hplay|].
  destruct (fillBoard_spec src k (collapseBoard (board g)) Hsrc Hg1)
    as (Hg2 & _ & _ & _ & _ & Hfull2).
  specialize (Hfull2 (Hplay1 Hplay)).
  unfold refillTimeout.
  destruct (fillBoard src k (collapseBoard (board g))) as [b2 k2] eqn:Hfilled.
  cbn [fst snd] in *.
  destruct (hasAvailableMoves_spec b2) as ([|] & Hhas & _); rewrite Hhas.
  - eexists _, _. cbn [mbind option_bind].
    split; [done|]. cbn [board sel round chainCount score timeLeft chainTimeout].
    split; [done|]. do 5 (split; [done|]). split; [by left|].
    intros _. split; [done|]. split; [done|]. intros c Hc.
    destruct (refilled_column src k (board g) c Hsrc) as (fresh & Hcol & Hfresh & _);
      [by destruct Hplay|done|].
    rewrite Hfilled in Hcol. by exists fresh.
  - destruct (shuffleBoard_loop_result src fuel k2 b2) as (b3 & n & k3 & Hrun & Hfull3 & Hk3 & Hmove);
      [done|done|done|].
    cbn [mbind option_bind]. rewrite Hrun. cbn [mbind option_bind].
    eexists _, _. split; [done|].
    cbn [board sel round chainCount score timeLeft chainTimeout].
    split; [done|]. do 5 (split; [done|]). split; [|done].
    destruct (decide (n ≤ 50)) as [Hn|Hn]; [left; by apply Hmove|right]. lia.
Qed.

(** The refill timeout always completes when the reshuffle may run its 51
    attempts.  It leaves a board without Empty cells, raises the chain
    multiplier by one and touches neither the score, the clock nor the path
    variables.  The board has a move unless the reshuffle gave up, and when
    no reshuffle was needed every column consists of fresh tiles on top of
    the tiles it had, in their order. *)
Theorem refillTimeout_restores_board (src : nat → Q) (fuel k : nat) (g : Game) :
  random_source src → playable_grid (board g) → (51 ≤ fuel)%nat →
  let filled := fillBoard src k (collapseBoard (board g)) in
  ∃ g' k',
    refillTimeout fuel src k g = Some (g', k')
    ∧ full_grid (board g')
    ∧ sel g' = sel g
    ∧ chainCount (round g') = chainCount (round g) + 1
    ∧ score (round g') = score (round g)
    ∧ timeLeft (round g') = timeLeft (round g)
    ∧ chainTimeout (round g') = true
    ∧ (hasAvailableMoves (board g') = Some true
       ∨ Z.of_nat k' = Z.of_nat filled.2 + 36 * 51)
    ∧ (hasAvailableMoves filled.1 = Some true →
       board g' = filled.1 ∧ k' = filled.2
       ∧ ∀ c, 0 ≤ c < COLS →
           ∃ fresh,
             column (board g') c
             = fresh ++ filter (λ v, v ≠ Empty) (column (board g) c)
             ∧ Forall is_tile fresh).
Proof. exact (refillTimeout_spec src fuel k g). Qed.

Lemma refillTimeout_restores_board_witness :
  ∃ g' k',
    refillTimeout 51 checker_src 0 (finishSelection last_second_drag) = Some (g', k')
    ∧ full_grid (board g')
    ∧ chainCount (round g') = 2.
Proof.
  destruct (refillTimeout_restores_board checker_src 51 0
              (finishSelection last_second_drag))
    as (g' & k' & Hrun & Hfull & _ & Hchain & _).
  - apply checker_src_random.
  - solve_grid.
  - lia.
  - exists g', k'. split; [exact Hrun|]. split; [exact Hfull|exact Hchain].
Defined.

(** ** Counting the cleared cells *)

Lemma count_pairs_rows (b : Board) (rs cs : list Z) :
  length (filter (λ p : Pos, cell_at b p.1 p.2 = Empty) (r ← rs; c ← cs; [(r, c)]))
  = sum_list_with (λ r, length (filter (λ c, cell_at b r c = Empty) cs)) rs.
Proof.
  induction rs as [|r rs IH]; [done|].
  rewrite bind_cons, filter_app, length_app, IH. cbn [sum_list_with]. f_equal.
  clear IH. induction cs as [|c cs IH]; [done|].
  rewrite bind_cons. cbn [app]. rewrite !filter_cons. cbn [fst snd].
  destruct (decide (cell_at b r c = Empty)); cbn [length]; by rewrite IH.
Qed.

Lemma count_pairs_swap (b : Board) (rs cs : list Z) :
  sum_list_with (λ r, length (filter (λ c, cell_at b r c = Empty) cs)) rs
  = sum_list_with (λ c, length (filter (λ r, cell_at b r c = Empty) rs)) cs.
Proof.
  induction rs as [|r rs IH].
  - simpl. induction cs as [|c cs IHc]; [done|]. simpl. by rewrite <- IHc.
  - cbn [sum_list_with]. rewrite IH. clear IH.
    induction cs as [|c cs IHc]; [done|].
    cbn [sum_list_with]. rewrite !filter_cons.
    destruct (decide (cell_at b r c = Empty)); cbn [length]; lia.
Qed.

Lemma column_empties_rows (b : Board) (c : Z) :
  column_empties b c
  = length (filter (λ r, cell_at b r c = Empty) (seqZ 0 ROWS)).
Proof.
  unfold column_empties, column. generalize (seqZ 0 ROWS) as rs.
  induction rs as [|r rs IH]; [done|].
  rewrite fmap_cons, !filter_cons.
  destruct (decide (cell_at b r c = Empty)); cbn [length]; by rewrite IH.
Qed.

Lemma count_empty_columns (b : Board) :
  count_empty b = sum_list_with (column_empties b) (seqZ 0 COLS).
Proof.
  unfold count_empty, empty_cells, all_cells.
  rewrite count_pairs_rows.
  rewrite count_pairs_swap. generalize (seqZ 0 COLS) as cs.
  induction cs as [|c cs IH]; [done|].
  cbn [sum_list_with]. by rewrite IH, column_empties_rows.
Qed.

Lemma count_empty_collapse (b : Board) :
  grid6 b → count_empty (collapseBoard b) = count_empty b.
Proof.
  intros Hg. rewrite !count_empty_columns.
  destruct (collapseBoard_columns b Hg) as [_ Hcol].
  assert (∀ c, c ∈ seqZ 0 COLS →
            column_empties (collapseBoard b) c = column_empties b c) as Hsame.
  { intros c Hc. apply elem_of_seqZ in Hc. unfold column_empties.
    rewrite Hcol by lia. by rewrite compact_Permutation. }
  revert Hsame. generalize (seqZ 0 COLS) as cs.
  induction cs as [|c cs IH]; intros Hsame; [done|].
  cbn [sum_list_with]. rewrite Hsame by apply list_elem_of_here.
  rewrite IH; [done|]. intros c' Hc'. by apply Hsame, list_elem_of_further.
Qed.

Lemma count_empty_full (b : Board) : full_grid b → count_empty b = 0%nat.
Proof.
  intros Hfull. unfold count_empty.
  destruct (empty_cells b all_cells) as [|p l] eqn:Hl; [done|]. exfalso.
  assert (p ∈ empty_cells b all_cells) as Hp by (rewrite Hl; apply list_elem_of_here).
  apply list_elem_of_filter in Hp as [Hemp Hin].
  apply elem_of_all_cells in Hin.
  destruct (full_grid_tiles b p Hfull Hin) as [c Hc]. congruence.
Qed.

Lemma count_empty_clear (b : Board) (path : list Pos) :
  full_grid b → NoDup path → Forall inb path →
  playable_grid (clear_cells b path)
  ∧ count_empty (clear_cells b path) = length path.
Proof.
  intros Hfull Hnd Hin.
  destruct (clear_cells_spec path b) as (Hg' & Hclr & Hkeep);
    [by destruct Hfull|done|].
  split.
  - apply playable_grid_cells; [done|]. intros p Hp.
    destruct (decide (p ∈ path)) as [Hpp|Hpp]; [by rewrite Hclr|].
    rewrite Hkeep by done. destruct (full_grid_tiles b p Hfull Hp) as [c ->]. done.
  - unfold count_empty. apply Permutation_length, NoDup_Permutation; [|done|].
    + apply NoDup_filter, NoDup_all_cells.
    + intros p. unfold empty_cells. rewrite list_elem_of_filter, elem_of_all_cells.
      split.
      * intros [Hemp Hp]. destruct (decide (p ∈ path)) as [|Hpp]; [done|].
        rewrite Hkeep in Hemp by done.
        destruct (full_grid_tiles b p Hfull Hp) as [c Hc]. congruence.
      * intros Hp. split; [by apply Hclr|].
        by rewrite Forall_forall in Hin; apply Hin.
Qed.

Lemma finishSelection_commit_facts (g : Game) :
  isDrawing (sel g) = true → (3 ≤ length (selectedPath (sel g)))%nat →
  board (finishSelection g) = clear_cells (board g) (selectedPath (sel g))
  ∧ pendingRefills (round (finishSelection g)) = S (pendingRefills (round g))
  ∧ chainCount (round (finishSelection g)) = chainCount (round g).
Proof.
  intros Hdraw Hlen. unfold finishSelection. rewrite Hdraw. cbn [negb].
  by rewrite bool_decide_eq_true_2 by lia.
Qed.

Lemma refillTimeout_pending (src : nat → Q) (fuel k : nat) (g g' : Game) (k' : nat) :
  refillTimeout fuel src k g = Some (g', k') →
  pendingRefills (round g') = Nat.pred (pendingRefills (round g)).
Proof.
  unfold refillTimeout. destruct (fillBoard _ _ _) as [b2 k2].
  destruct (hasAvailableMoves b2) as [[|]|]; cbn [mbind option_bind]; [| |done].
  - by intros [= <- _].
  - destruct (shuffleBoard _ _ _ _) as [[[b3 n3] k3]|];
      cbn [mbind option_bind]; [|done].
    by intros [= <- _].
Qed.

(** A commit followed by its refill.  On a board without Empty cells, the
    commit of a drag over [n >= 3] cells of the grid leaves exactly [n]
    Empty cells; the refill then draws exactly [n] random colours when no
    reshuffle is needed, and the board is without Empty cells again. *)
Theorem commit_then_refill (src : nat → Q) (fuel k : nat) (g : Game) :
  random_source src → (51 ≤ fuel)%nat →
  selecting g → full_grid (board g) → Forall inb (selectedPath (sel g)) →
  (3 ≤ length (selectedPath (sel g)))%nat →
  let n := length (selectedPath (sel g)) in
  let g1 := finishSelection g in
  count_empty (board g1) = n
  ∧ pendingRefills (round g1) = S (pendingRefills (round g))
  ∧ ∃ g2 k2,
      refillTimeout fuel src k g1 = Some (g2, k2)
      ∧ count_empty (board g2) = 0%nat
      ∧ pendingRefills (round g2) = pendingRefills (round g)
      ∧ chainCount (round g2) = chainCount (round g) + 1
      ∧ (hasAvailableMoves (fillBoard src k (collapseBoard (board g1))).1 = Some true →
         k2 = (k + n)%nat).
Proof.
  intros Hsrc Hfuel (Hdraw & _ & Hnd & _) Hfull Hin Hlen n g1. subst n g1.
  destruct (finishSelection_commit_facts g Hdraw Hlen) as (Hb1 & Hp1 & Hc1).
  destruct (count_empty_clear (board g) _ Hfull Hnd Hin) as [Hplay Hcount].
  rewrite <- Hb1 in Hplay, Hcount. clear Hb1.
  generalize dependent (finishSelection g). intros g1 Hp1 Hc1 Hplay Hcount.
  split; [exact Hcount|]. split; [exact Hp1|].
  destruct (refillTimeout_spec src fuel k g1 Hsrc Hplay Hfuel)
    as (g2 & k2 & Hrun & Hfull2 & _ & Hchain & _ & _ & _ & _ & Hnoshuffle).
  exists g2, k2. split; [exact Hrun|]. split; [by apply count_empty_full|].
  split; [|split; [lia|]].
  - rewrite (refillTimeout_pending _ _ _ _ _ _ Hrun), Hp1. reflexivity.
  - intros Hhas. destruct (Hnoshuffle Hhas) as (_ & -> & _).
    destruct (fillBoard_spec src k (collapseBoard (board g1)) Hsrc)
      as (_ & -> & _).
    { apply collapseBoard_columns. by destruct Hplay. }
    rewrite count_empty_collapse by (by destruct Hplay). by rewrite Hcount.
Qed.

Lemma commit_then_refill_witness :
  count_empty (board (finishSelection last_second_drag)) = 3%nat.
Proof.
  destruct (commit_then_refill checker_src 51 0 last_second_drag) as [Hcount _].
  - apply checker_src_random.
  - lia.
  - apply (drag_path_invariant _ (0, 0) [(0, 1); (0, 2)]). reflexivity.
  - solve_grid.
  - repeat (apply Forall_cons_2; [by vm_compute|]). apply Forall_nil_2.
  - vm_compute. lia.
  - exact Hcount.
Defined.

(** ** The round variables *)

Lemma handleEnter_frame (g : Game) (tile : Pos) :
  board (handleEnter g tile) = board g ∧ round (handleEnter g tile) = round g.
Proof.
  unfold handleEnter. destruct (negb _); [done|]. destruct tile as [r c].
  repeat (case_bool_decide; try done).
  unfold updateTurnCount. by destruct (fold_left _ _ _).
Qed.

Lemma startSelection_frame (g : Game) (tile : Pos) :
  board (startSelection g tile) = board g ∧ round (startSelection g tile) = round g.
Proof.
  unfold startSelection. case_bool_decide; [done|]. by destruct tile.
Qed.

Lemma finishSelection_round_ok (g : Game) :
  round_ok (round g) → round_ok (round (finishSelection g)).
Proof.
  intros (Ht & Hc & Hm). unfold finishSelection. destruct (negb _); [done|].
  case_bool_decide as Hlen; [|done].
  unfold round_ok, commit.
  cbn [round timeLeft maxTimeForBar chainCount maxChain bestChainValue].
  repeat case_bool_decide; lia.
Qed.

Lemma tick_round_ok (g : Game) : round_ok (round g) → round_ok (round (tick g)).
Proof.
  intros (Ht & Hc & Hm). unfold tick. destruct (negb _); [done|].
  repeat case_bool_decide; unfold round_ok, endGame;
    cbn [round timeLeft maxTimeForBar chainCount maxChain bestChainValue]; lia.
Qed.

(** Whatever happens, the clock stays between 0 and the maximum of the time
    bar, the chain multiplier stays at least 1 and the longest chain of the
    round stays between 0 and the best chain: every event, the chain decay,
    the refill and a restart keep these bounds. *)
Theorem round_bounds_are_kept (g : Game) :
  round_ok (round g) →
  (∀ e, round_ok (round (dispatch g e)))
  ∧ round_ok (round (chainDecay g))
  ∧ (∀ fuel src k g' k',
       refillTimeout fuel src k g = Some (g', k') → round_ok (round g'))
  ∧ (∀ fuel src k g' k',
       startGame fuel src k g = Some (g', k') → round_ok (round g')).
Proof.
  intros Hok. pose proof Hok as (Ht & Hc & Hm). split; [|split; [|split]].
  - intros [tile|tile| |tile|tile| |]; unfold dispatch, on_board, pointerdown,
      pointermove, handlePointerEnd, touchstart, touchmove, touchend.
    + destruct (pointerEvents _); [|done]. case_bool_decide; [done|].
      by rewrite (proj2 (startSelection_frame g tile)).
    + destruct (pointerEvents _); [|done]. destruct (negb _); [done|].
      by rewrite (proj2 (handleEnter_frame g tile)).
    + destruct (negb _); [done|]. by apply finishSelection_round_ok.
    + destruct (pointerEvents _); [|done]. case_bool_decide; [done|].
      by rewrite (proj2 (startSelection_frame g tile)).
    + destruct (pointerEvents _); [|done]. destruct (negb _); [done|].
      by rewrite (proj2 (handleEnter_frame g tile)).
    + destruct (pointerEvents _); [|done]. by apply finishSelection_round_ok.
    + by apply tick_round_ok.
  - unfold round_ok, chainDecay.
    cbn [round timeLeft maxTimeForBar chainCount maxChain bestChainValue]. lia.
  - intros fuel src k g' k'. unfold refillTimeout.
    destruct (fillBoard _ _ _) as [b2 k2].
    destruct (hasAvailableMoves b2) as [[|]|]; cbn [mbind option_bind]; [| |done].
    + intros [= <- _]. unfold round_ok.
      cbn [round timeLeft maxTimeForBar chainCount maxChain bestChainValue]. lia.
    + destruct (shuffleBoard _ _ _ _) as [[[b3 n3] k3]|];
        cbn [mbind option_bind]; [|done].
      intros [= <- _]. unfold round_ok.
      cbn [round timeLeft maxTimeForBar chainCount maxChain bestChainValue]. lia.
  - intros fuel src k g' k'. unfold startGame.
    destruct (initBoard src k) as [b1 k1].
    destruct (hasAvailableMoves b1) as [[|]|]; cbn [mbind option_bind]; [| |done].
    + intros [= <- _]. unfold round_ok.
      cbn [round timeLeft maxTimeForBar chainCount maxChain bestChainValue]. lia.
    + destruct (shuffleBoard _ _ _ _) as [[[b3 n3] k3]|];
        cbn [mbind option_bind]; [|done].
      intros [= <- _]. unfold round_ok.
      cbn [round timeLeft maxTimeForBar chainCount maxChain bestChainValue]. lia.
Qed.

Lemma round_bounds_are_kept_witness :
  round_ok (round (dispatch last_second_drag PointerUp)).
Proof.
  apply (proj1 (round_bounds_are_kept last_second_drag ltac:(by vm_compute))).
Defined.

(** ** The clock *)

Lemma run_cons (g : Game) (e : Event) (es : list Event) :
  run g (e :: es) = run (dispatch g e) es.
Proof. done. Qed.

Lemma ticks_when_stopped (g : Game) (n : nat) :
  timerRunning (round g) = false → run g (replicate n TimerTick) = g.
Proof.
  intros Hstop. induction n as [|n IH]; [done|].
  cbn [replicate]. rewrite run_cons. cbn [dispatch]. unfold tick at 1.
  rewrite Hstop. cbn [negb]. exact IH.
Qed.

(** A running clock that shows [t > 0] shows [t - n] after [n] ticks while
    [n < t]; the tick that reaches 0 ends the round (the interval is cleared
    and the board stops receiving pointer events) and from then on the clock
    stays at 0.  Ticks change nothing but these three variables. *)
Theorem ticks_count_down (g : Game) (n : nat) :
  timerRunning (round g) = true → 0 < timeLeft (round g) →
  let g' := run g (replicate n TimerTick) in
  timeLeft (round g') = Z.max 0 (timeLeft (round g) - Z.of_nat n)
  ∧ timerRunning (round g') = bool_decide (Z.of_nat n < timeLeft (round g))
  ∧ pointerEvents (round g')
    = (if bool_decide (Z.of_nat n < timeLeft (round g))
       then pointerEvents (round g) else false)
  ∧ board g' = board g ∧ sel g' = sel g
  ∧ score (round g') = score (round g)
  ∧ chainCount (round g') = chainCount (round g).
Proof.
  revert g. induction n as [|n IH]; intros g Hrun Ht.
  - cbn [replicate run fold_left]. rewrite bool_decide_eq_true_2 by lia.
    split; [lia|]. by rewrite Hrun.
  - cbn zeta. cbn [replicate]. rewrite run_cons. cbn [dispatch].
    destruct (decide (timeLeft (round g) = 1)) as [H1|H1].
    + assert (tick g = endGame
                {| board := board g; sel := sel g;
                   round := {| score := score (round g);
                               chainCount := chainCount (round g);
                               maxChain := maxChain (round g);
                               timeLeft := 0;
                               maxTimeForBar := maxTimeForBar (round g);
                               bestScore := bestScore (round g);
                               bestChainValue := bestChainValue (round g);
                               timerRunning := timerRunning (round g);
                               pointerEvents := pointerEvents (round g);
                               pendingRefills := pendingRefills (round g);
                               chainTimeout := chainTimeout (round g) |} |})
        as ->.
      { unfold tick. rewrite Hrun, H1. cbn [negb]. by vm_compute. }
      rewrite ticks_when_stopped by done.
      rewrite !bool_decide_eq_false_2 by lia.
      cbn [endGame round board sel timeLeft timerRunning pointerEvents score
             chainCount]. split; [lia|done].
    + assert (tick g = {| board := board g; sel := sel g;
                          round := {| score := score (round g);
                               chainCount := chainCount (round g);
                               maxChain := maxChain (round g);
                               timeLeft := timeLeft (round g) - 1;
                               maxTimeForBar := maxTimeForBar (round g);
                               bestScore := bestScore (round g);
                               bestChainValue := bestChainValue (round g);
                               timerRunning := timerRunning (round g);
                               pointerEvents := pointerEvents (round g);
                               pendingRefills := pendingRefills (round g);
                               chainTimeout := chainTimeout (round g) |} |})
        as ->.
      { unfold tick. rewrite Hrun. cbn [negb].
        rewrite (bool_decide_eq_false_2 (timeLeft (round g) - 1 < 0)) by lia.
        by rewrite bool_decide_eq_false_2 by lia. }
      match goal with |- context [run ?g0 _] => specialize (IH g0) end.
      cbn [round board sel timeLeft timerRunning pointerEvents score chainCount]
        in IH.
      destruct (IH Hrun ltac:(lia)) as (IH1 & IH2 & IH3 & IH4 & IH5 & IH6 & IH7).
      rewrite IH1, IH2, IH3, IH4, IH5, IH6, IH7.
      split; [lia|]. split; [apply bool_decide_ext; lia|].
      split; [|done].
      destruct (decide (Z.of_nat n < timeLeft (round g) - 1)).
      * by rewrite !bool_decide_eq_true_2 by lia.
      * by rewrite !bool_decide_eq_false_2 by lia.
Qed.

Lemma ticks_count_down_witness :
  timeLeft (round (run (fresh_game (uniform_grid red)) (replicate 75 TimerTick))) = 0
  ∧ timerRunning (round (run (fresh_game (uniform_grid red))
                             (replicate 75 TimerTick))) = false.
Proof.
  destruct (ticks_count_down (fresh_game (uniform_grid red)) 75)
    as (Ht & Hr & _); [reflexivity..|].
  split; [exact Ht|exact Hr].
Defined.

(** ** After the round *)

Lemma refillTimeout_chain (src : nat → Q) (fuel k : nat) (g g' : Game) (k' : nat) :
  refillTimeout fuel src k g = Some (g', k') →
  chainCount (round g') = chainCount (round g) + 1
  ∧ chainTimeout (round g') = true.
Proof.
  unfold refillTimeout. destruct (fillBoard _ _ _) as [b2 k2].
  destruct (hasAvailableMoves b2) as [[|]|]; cbn [mbind option_bind]; [| |done].
  - by intros [= <- _].
  - destruct (shuffleBoard fuel src k2 b2) as [[[b3 n] k3]|];
      cbn [mbind option_bind]; [|done].
    by intros [= <- _].
Qed.

(** When the clock is at 0, the interval is stopped and no drag is active,
    the listeners and the interval callback change nothing, whatever
    sequence of pointer events, touch events and ticks arrives: each returns
    at its own first test, whether or not the board still receives pointer
    events.  The timeouts of a commit are another matter: endGame does not
    cancel them, and in such a state a refill that fires still raises the
    chain multiplier by one and the chain decay still sets it to 1. *)
Theorem ended_round_ignores_events (g : Game) (events : list Event) :
  timerRunning (round g) = false → timeLeft (round g) ≤ 0 →
  isDrawing (sel g) = false →
  run g events = g
  ∧ (∀ fuel src k g' k',
       refillTimeout fuel src k g = Some (g', k') →
       chainCount (round g') = chainCount (round g) + 1
       ∧ chainTimeout (round g') = true)
  ∧ chainCount (round (chainDecay g)) = 1.
Proof.
  intros Hstop Htime Hidle. split; [|split; [|done]].
  - induction events as [|e events IH]; [done|].
    rewrite run_cons.
    assert (dispatch g e = g) as ->; [|done].
    destruct e;
      unfold dispatch, on_board, pointerdown, pointermove, touchstart, touchmove,
        touchend, handlePointerEnd, finishSelection, tick;
      rewrite ?Hidle, ?Hstop, ?bool_decide_eq_true_2 by done;
      cbn [negb]; by destruct (pointerEvents (round g)).
  - intros fuel src k g' k'. apply refillTimeout_chain.
Qed.

Lemma ended_round_ignores_events_witness :
  let g := run last_second_drag [TimerTick; PointerUp] in
  run g [PointerDown (3, 3); PointerMove (3, 4); TouchStart (1, 1); TimerTick;
         PointerUp; TouchEnd] = g
  ∧ pendingRefills (round g) = 1%nat.
Proof.
  intros g.
  destruct (ended_round_ignores_events g
              [PointerDown (3, 3); PointerMove (3, 4); TouchStart (1, 1);
               TimerTick; PointerUp; TouchEnd]) as [Hrun _].
  - reflexivity.
  - by vm_compute.
  - reflexivity.
  - split; [exact Hrun|reflexivity].
Defined.

(** The two end listeners together do not score twice: once
    finishSelection has run, the drag is over, and a second call changes
    nothing; pointerup and touchend for one release, in either order, have
    the effect of a single finishSelection. *)
Theorem second_end_changes_nothing (g : Game) :
  finishSelection (finishSelection g) = finishSelection g
  ∧ isDrawing (sel (finishSelection g)) = false
  ∧ run g [PointerUp; TouchEnd] = finishSelection g
  ∧ run g [TouchEnd; PointerUp] = finishSelection g.
Proof.
  assert (∀ g0, isDrawing (sel (finishSelection g0)) = false) as Hidle.
  { intros g0. unfold finishSelection. by destruct (isDrawing (sel g0)) eqn:Hd. }
  assert (∀ g0, finishSelection (finishSelection g0) = finishSelection g0) as Hid.
  { intros g0. unfold finishSelection at 1. by rewrite Hidle. }
  assert (∀ g0, handlePointerEnd g0 = finishSelection g0) as Hup.
  { intros g0. unfold handlePointerEnd, finishSelection.
    by destruct (isDrawing (sel g0)). }
  split; [done|]. split; [done|].
  unfold run. cbn [fold_left dispatch]. rewrite !Hup. unfold on_board, touchend.
  split.
  - by destruct (pointerEvents (round (finishSelection g))).
  - by destruct (pointerEvents (round g)).
Qed.

(** ** What an available move is *)

Lemma NoDup_dirs : NoDup dirs.
Proof. apply (bool_decide_unpack _). by vm_compute. Qed.

Lemma same_neighbours_linked (b : Board) (p : Pos) (d : Dir) :
  inb p → d ∈ same_neighbours b p → linked b p (p.1 + d.1, p.2 + d.2).
Proof.
  intros Hp Hd. apply list_elem_of_filter in Hd as [[Hq Hcell] Hd].
  split; [done|]. split; [done|]. split; [by apply dirs_adjacent|]. done.
Qed.

Lemma linked_same_neighbours (b : Board) (p q : Pos) :
  linked b p q →
  ∃ d, d ∈ same_neighbours b p ∧ q = (p.1 + d.1, p.2 + d.2).
Proof.
  intros (Hp & Hq & Hadj & Hcell).
  apply adjacent_dirs in Hadj as (d & Hd & ->). exists d. split; [|done].
  apply list_elem_of_filter. split; [|done]. split; [done|]. by rewrite Hcell.
Qed.

Lemma has_triple_cells (b : Board) :
  has_triple b ↔ ∃ p q r, linked b p q ∧ linked b p r ∧ q ≠ r.
Proof.
  unfold has_triple. rewrite Exists_exists. split.
  - intros (p & Hp & Hlen). apply elem_of_all_cells in Hp.
    assert (NoDup (same_neighbours b p)) as Hnd by apply NoDup_filter, NoDup_dirs.
    destruct (same_neighbours b p) as [|d1 [|d2 ds]] eqn:Hsn; [simpl in Hlen; lia..|].
    exists p, (p.1 + d1.1, p.2 + d1.2), (p.1 + d2.1, p.2 + d2.2).
    split; [apply same_neighbours_linked; [done|rewrite Hsn; apply list_elem_of_here]|].
    split; [apply same_neighbours_linked; [done|rewrite Hsn; by repeat constructor]|].
    apply NoDup_cons in Hnd as [Hne _]. intros [= H1 H2]. apply Hne.
    assert (d1 = d2) as -> by (destruct d1, d2; simpl in *; f_equal; lia).
    apply list_elem_of_here.
  - intros (p & q & r & Hq & Hr & Hne). exists p.
    split; [apply elem_of_all_cells; by destruct Hq|].
    apply linked_same_neighbours in Hq as (d1 & Hd1 & ->).
    apply linked_same_neighbours in Hr as (d2 & Hd2 & ->).
    destruct (same_neighbours b p) as [|e1 [|e2 es]]; [by apply elem_of_nil in Hd1| |simpl; lia].
    apply list_elem_of_singleton in Hd1 as ->.
    by apply list_elem_of_singleton in Hd2 as ->.
Qed.

Lemma component3_has_triple (b : Board) : has_component3 b ↔ has_triple b.
Proof.
  split.
  - intros (l & (Hnd & Hin & Hconn) & Hlen).
    destruct (decide (has_triple b)) as [|Hno]; [done|]. exfalso.
    assert (∀ p q r, linked b p q → linked b p r → q = r) as Hone.
    { intros p q r Hq Hr. destruct (decide (q = r)) as [|Hne]; [done|].
      destruct Hno. apply has_triple_cells. by exists p, q, r. }
    destruct l as [|x [|y [|z l]]]; [simpl in Hlen; lia..|].
    apply NoDup_cons in Hnd as [Hx Hnd]. apply NoDup_cons in Hnd as [Hy _].
    assert (connected b x y) as Hxy by (apply Hconn; by repeat constructor).
    assert (connected b x z) as Hxz by (apply Hconn; by repeat constructor).
    apply rtc_inv in Hxy as [->|(x1 & Hx1 & _)];
      [destruct Hx; apply list_elem_of_here|].
    assert (closed_under_links b (λ p, p = x ∨ p = x1)) as Hcl.
    { intros p q [->| ->] Hl.
      - right. by apply (Hone x).
      - left. apply (Hone x1); [done|by apply linked_sym]. }
    assert (connected b x y) as Hxy' by (apply Hconn; by repeat constructor).
    pose proof (closed_connected b _ x y Hcl (or_introl eq_refl) Hxy') as [->| ->];
      [destruct Hx; apply list_elem_of_here|].
    pose proof (closed_connected b _ x z Hcl (or_introl eq_refl) Hxz) as [->| ->].
    + destruct Hx. by repeat constructor.
    + destruct Hy. apply list_elem_of_here.
  - intros Ht. apply has_triple_cells in Ht as (p & q & r & Hq & Hr & Hne).
    assert (p ≠ q ∧ p ≠ r) as [Hpq Hpr].
    { destruct Hq as (_ & _ & Hq & _), Hr as (_ & _ & Hr & _).
      unfold adjacent in *. split; intros ->; lia. }
    exists [q; p; r]. split; [|simpl; lia]. split; [|split].
    + apply NoDup_cons. split.
      { intros H. apply elem_of_cons in H as [->|H]; [done|].
        by apply list_elem_of_singleton in H. }
      apply NoDup_cons. split; [|apply NoDup_singleton].
      intros H. by apply list_elem_of_singleton in H.
    + destruct Hq as (Hp & Hq' & _), Hr as (_ & Hr' & _).
      by repeat apply Forall_cons_2.
    + assert (∀ s, s ∈ [q; p; r] → connected b p s) as Hps.
      { intros s Hs. repeat (apply elem_of_cons in Hs as [->|Hs]);
          [by apply rtc_once|apply rtc_refl|by apply rtc_once|].
        by apply elem_of_nil in Hs. }
      intros s t Hs Ht. apply rtc_trans with p; [apply connected_sym|]; by apply Hps.
Qed.

Lemma hasAvailableMoves_triple (b : Board) :
  hasAvailableMoves b = Some (bool_decide (has_triple b)).
Proof.
  destruct (hasAvailableMoves_spec b) as (r & -> & Hr).
  f_equal. rewrite component3_has_triple in Hr.
  destruct r; symmetry.
  - apply bool_decide_eq_true_2. by apply Hr.
  - apply bool_decide_eq_false_2. intros Ht. by apply Hr in Ht.
Qed.

(** hasAvailableMoves answers a local question: it returns true exactly
    when some cell of the 6 by 6 area has two neighbours with its own
    content. *)
Theorem hasAvailableMoves_local_test (b : Board) :
  hasAvailableMoves b = Some (bool_decide (has_triple b)).
Proof. exact (hasAvailableMoves_triple b). Qed.

Lemma drag_path_inb (g : Game) (tile : Pos) (tiles : list Pos) :
  0 < timeLeft (round g) → Forall inb (tile :: tiles) →
  Forall inb (selectedPath (sel (fold_left handleEnter tiles (startSelection g tile)))).
Proof.
  intros Ht Hin. apply Forall_cons in Hin as [Htile Htiles].
  assert (Forall inb (selectedPath (sel (startSelection g tile)))) as H0.
  { unfold startSelection. rewrite bool_decide_eq_false_2 by lia.
    destruct tile. by apply Forall_singleton. }
  revert H0. generalize (startSelection g tile) as g0.
  induction tiles as [|t tiles IH]; intros g0 Hg0; [done|].
  apply Forall_cons in Htiles as [Ht0 Htiles].
  cbn [fold_left]. apply IH; [done|]. apply Forall_forall. intros p Hp.
  apply handleEnter_path_cells in Hp as [->|Hp]; [done|].
  by rewrite Forall_forall in Hg0; apply Hg0.
Qed.

Lemma selecting_path_component (g : Game) :
  selecting g → Forall inb (selectedPath (sel g)) →
  in_one_component (board g) (selectedPath (sel g)).
Proof.
  intros (_ & _ & Hnd & Hadj & Hcol) Hin. split; [done|]. split; [done|].
  set (path := selectedPath (sel g)) in *.
  rewrite Forall_forall in Hin.
  assert (∀ i p q, path !! 0%nat = Some p → path !! i = Some q →
            connected (board g) p q) as Hhead.
  { induction i as [|i IH]; intros p q Hp Hq.
    - rewrite Hp in Hq. injection Hq as ->. apply rtc_refl.
    - destruct (lookup_lt_is_Some_2 path i) as [q' Hq'].
      { apply lookup_lt_Some in Hq. lia. }
      apply rtc_r with q'; [by apply IH|].
      assert (q' ∈ path ∧ q ∈ path) as [H1 H2]
        by (split; apply list_elem_of_lookup; eauto).
      split; [by apply Hin|]. split; [by apply Hin|].
      split; [by eapply Hadj|]. by rewrite !Hcol. }
  intros p q Hp Hq.
  apply list_elem_of_lookup in Hp as [i Hi]. apply list_elem_of_lookup in Hq as [j Hj].
  destruct (lookup_lt_is_Some_2 path 0) as [h Hh].
  { apply lookup_lt_Some in Hi. lia. }
  apply rtc_trans with h; [apply connected_sym|]; by eapply Hhead.
Qed.



(** When hasAvailableMoves returns false the player has no move: whatever
    cells of the grid a drag visits, its path never reaches three cells, so
    the release abandons it and leaves the grid and the round variables as
    they are. *)
Theorem no_move_no_commit (g : Game) (tile : Pos) (tiles : list Pos) :
  hasAvailableMoves (board g) = Some false → 0 < timeLeft (round g) →
  Forall inb (tile :: tiles) →
  let g' := fold_left handleEnter tiles (startSelection g tile) in
  (length (selectedPath (sel g')) < 3)%nat
  ∧ board (finishSelection g') = board g
  ∧ round (finishSelection g') = round g.
Proof.
  intros Hhas Ht Hin g'.
  destruct (drag_path_invariant g tile tiles Ht) as (Hsel & Hb & Hr).
  fold g' in Hsel, Hb, Hr.
  pose proof (selecting_path_component g' Hsel (drag_path_inb g tile tiles Ht Hin))
    as Hcomp. rewrite Hb in Hcomp.
  assert (length (selectedPath (sel g')) < 3)%nat as Hlen.
  { destruct (decide (length (selectedPath (sel g')) < 3)%nat) as [|Hge]; [done|].
    exfalso. destruct (hasAvailableMoves_spec (board g)) as (res & Hres & Hiff).
    rewrite Hhas in Hres. injection Hres as <-.
    assert (false = true) as Habs; [|done].
    apply Hiff. exists (selectedPath (sel g')). split; [done|lia]. }
  split; [done|]. unfold finishSelection.
  destruct (negb _); [done|]. rewrite bool_decide_eq_false_2 by lia. done.
Qed.

Lemma no_move_no_commit_witness :
  Nat.lt
    (length (selectedPath (sel (fold_left handleEnter [(0, 1); (1, 1); (1, 0)]
       (startSelection (fresh_game (checkerboard red blue)) (0, 0))))))
    3%nat.
Proof.
  destruct (no_move_no_commit (fresh_game (checkerboard red blue)) (0, 0)
              [(0, 1); (1, 1); (1, 0)]) as [Hlen _].
  - by vm_compute.
  - reflexivity.
  - repeat (apply Forall_cons_2; [by vm_compute|]). apply Forall_nil_2.
  - exact Hlen.
Defined.

(** ** Fresh boards (initBoard, shuffleBoard, startGame) *)

Lemma initBoard_drawn (src : nat → Q) (k : nat) :
  initBoard src k = (drawn_board src k, (36 + k)%nat).
Proof. unfold initBoard, drawn_board. cbv - [random_colour]. reflexivity. Qed.

Lemma regenerate_drawn (src : nat → Q) (k : nat) (b : Board) :
  grid6 b → regenerate src k b = (drawn_board src k, (36 + k)%nat).
Proof.
  intros [Hlen Hrows].
  do 7 (destruct b as [|? b]; [try discriminate Hlen|]); [|discriminate Hlen].
  repeat match goal with
  | H : Forall _ (_ :: _) |- _ => apply Forall_cons in H as [? H]
  end.
  repeat match goal with
  | H : length ?l = Z.to_nat COLS |- _ =>
      do 7 (destruct l as [|? l]; [try discriminate H|]); [|discriminate H];
      clear H
  end.
  unfold regenerate, drawn_board. cbv - [random_colour]. reflexivity.
Qed.

Lemma drawn_board_full (src : nat → Q) (k : nat) :
  random_source src → full_grid (drawn_board src k).
Proof.
  intros Hsrc. split.
  - unfold grid6, drawn_board. cbv - [random_colour].
    split; [reflexivity|repeat constructor].
  - unfold drawn_board. rewrite Forall_fmap. apply Forall_forall. intros r _.
    cbn [compose]. rewrite Forall_fmap. apply Forall_forall. intros c _.
    cbn [compose]. by apply (random_colour_tile src _ Hsrc).
Qed.

(** initBoard builds the board row by row from 36 consecutive draws: cell
    (r, c) gets the colour of draw number 6 r + c.  The regeneration loops
    of shuffleBoard, run on any 6 by 6 board, give the board that initBoard
    gives from the same draws, whatever the old contents were; with a source
    of numbers in [0, 1) every cell holds a colour of the palette. *)
Theorem initBoard_row_major (src : nat → Q) (k : nat) :
  (∀ r c, 0 ≤ r < ROWS → 0 ≤ c < COLS →
     cell_at (initBoard src k).1 r c = random_colour src (Z.to_nat (6 * r + c) + k))
  ∧ (initBoard src k).2 = (36 + k)%nat
  ∧ (∀ b, grid6 b → regenerate src k b = initBoard src k)
  ∧ (random_source src → full_grid (initBoard src k).1).
Proof.
  rewrite initBoard_drawn. cbn [fst snd]. split; [|split; [done|split]].
  - intros r c Hr Hc. unfold ROWS, COLS in *.
    assert (r = 0 ∨ r = 1 ∨ r = 2 ∨ r = 3 ∨ r = 4 ∨ r = 5) as Hr' by lia.
    assert (c = 0 ∨ c = 1 ∨ c = 2 ∨ c = 3 ∨ c = 4 ∨ c = 5) as Hc' by lia.
    clear Hr Hc.
    destruct Hr' as [->|[->|[->|[->|[->| ->]]]]];
      destruct Hc' as [->|[->|[->|[->|[->| ->]]]]]; reflexivity.
  - intros b Hb. by apply regenerate_drawn.
  - apply drawn_board_full.
Qed.

Lemma initBoard_row_major_witness :
  cell_at (initBoard checker_src 0).1 2 3 = Tile blue
  ∧ regenerate checker_src 0 hole_grid = initBoard checker_src 0
  ∧ full_grid (initBoard checker_src 0).1.
Proof.
  destruct (initBoard_row_major checker_src 0) as (Hcell & _ & Hreg & Hfull).
  split; [|split].
  - rewrite (Hcell 2 3); [reflexivity|unfold ROWS; lia|unfold COLS; lia].
  - apply Hreg. split; [reflexivity|]. repeat constructor.
  - apply Hfull, checker_src_random.
Defined.

Lemma startGame_facts (src : nat → Q) (fuel k : nat) (g : Game) :
  random_source src → (51 ≤ fuel)%nat →
  ∃ g' n,
    startGame fuel src k g = Some (g', (36 * (1 + n) + k)%nat)
    ∧ (n ≤ 51)%nat
    ∧ full_grid (board g')
    ∧ (n = 0%nat → board g' = (initBoard src k).1)
    ∧ (n ≤ 50 → hasAvailableMoves (board g') = Some true)%nat
    ∧ timeLeft (round g') = 60 ∧ chainCount (round g') = 1
    ∧ timerRunning (round g') = true ∧ pointerEvents (round g') = true
    ∧ (0 ≤ bestChainValue (round g) → round_ok (round g'))
    ∧ pendingRefills (round g') = pendingRefills (round g)
    ∧ selectedPath (sel g') = selectedPath (sel g)
    ∧ isDrawing (sel g') = isDrawing (sel g)
    ∧ turnCount (sel g') = 0.
Proof.
  intros Hsrc Hfuel. unfold startGame. rewrite initBoard_drawn.
  pose proof (drawn_board_full src k Hsrc) as Hfull.
  destruct (hasAvailableMoves_spec (drawn_board src k)) as (has & Hhas & _).
  rewrite Hhas. cbn [mbind option_bind]. destruct has.
  - eexists _, 0%nat. cbn [mbind option_bind]. split; [reflexivity|].
    cbn [board round sel timeLeft chainCount timerRunning pointerEvents
         pendingRefills selectedPath isDrawing turnCount].
    repeat match goal with |- _ ∧ _ => split end; done || lia.
  - destruct (shuffleBoard_loop_result src fuel (36 + k) (drawn_board src k) Hsrc
                (proj1 Hfull) Hfuel) as (b' & n & k' & Hsh & Hfull' & [Hn Hk'] & Hmove).
    rewrite Hsh. cbn [mbind option_bind].
    exists {| board := b';
              sel := {| isDrawing := isDrawing (sel g);
                        selectedPath := selectedPath (sel g);
                        detached := length (selectedPath (sel g));
                        currentColour := currentColour (sel g);
                        lastRow := lastRow (sel g);
                        lastCol := lastCol (sel g);
                        lastDirection := lastDirection (sel g);
                        turnCount := 0 |};
              round := {| score := 0;
                          chainCount := 1;
                          maxChain := 0;
                          timeLeft := 60;
                          maxTimeForBar := 60;
                          bestScore := bestScore (round g);
                          bestChainValue := bestChainValue (round g);
                          timerRunning := true;
                          pointerEvents := true;
                          pendingRefills := pendingRefills (round g);
                          chainTimeout := chainTimeout (round g) |} |},
           (Z.to_nat n).
    assert (k' = (36 * (1 + Z.to_nat n) + k)%nat) as -> by lia.
    split; [reflexivity|].
    cbn [board round sel timeLeft chainCount timerRunning pointerEvents
         pendingRefills selectedPath isDrawing turnCount].
    repeat match goal with |- _ ∧ _ => split end;
      first [done | lia | intros ?; apply Hmove; lia].
Qed.

(** startGame always completes when the reshuffle may run its 51 attempts.
    The new board has a colour in every cell and has a move, unless all 51
    regenerations gave a board without one; the clock is at 60, the chain
    multiplier at 1, the interval runs and the board takes pointer events;
    36 numbers are drawn for the board and 36 for each regeneration.  The
    path of a drag in progress, the drawing flag and the scheduled refills
    are not reset; the turn count is. *)
Theorem startGame_gives_playable_round (src : nat → Q) (fuel k : nat) (g : Game) :
  random_source src → (51 ≤ fuel)%nat →
  ∃ g' n,
    startGame fuel src k g = Some (g', (36 * (1 + n) + k)%nat)
    ∧ (n ≤ 51)%nat
    ∧ full_grid (board g')
    ∧ (n = 0%nat → board g' = (initBoard src k).1)
    ∧ (n ≤ 50 → hasAvailableMoves (board g') = Some true)%nat
    ∧ timeLeft (round g') = 60 ∧ chainCount (round g') = 1
    ∧ timerRunning (round g') = true ∧ pointerEvents (round g') = true
    ∧ (0 ≤ bestChainValue (round g) → round_ok (round g'))
    ∧ pendingRefills (round g') = pendingRefills (round g)
    ∧ selectedPath (sel g') = selectedPath (sel g)
    ∧ isDrawing (sel g') = isDrawing (sel g)
    ∧ turnCount (sel g') = 0.
Proof. exact (startGame_facts src fuel k g). Qed.

Lemma startGame_gives_playable_round_witness :
  ∃ g' k', startGame 51 checker_src 0 last_second_drag = Some (g', k')
           ∧ full_grid (board g') ∧ isDrawing (sel g') = true.
Proof.
  destruct (startGame_gives_playable_round checker_src 51 0 last_second_drag)
    as (g' & n & Hrun & _ & Hfull & _ & _ & _ & _ & _ & _ & _ & _ & _ & Hdraw & _).
  - apply checker_src_random.
  - lia.
  - exists g', (36 * (1 + n) + 0)%nat. split; [exact Hrun|]. split; [exact Hfull|].
    rewrite Hdraw. reflexivity.
Defined.

(** ** Between a commit and its refill *)

Lemma finishSelection_commit_round (g : Game) :
  isDrawing (sel g) = true → (3 ≤ length (selectedPath (sel g)))%nat →
  score (round (finishSelection g))
  = (score (round g)
     + calculateScore (Z2F (Z.of_nat (length (selectedPath (sel g)))))
                      (Z2F (turnCount (sel g)))
                      (Z2F (chainCount (round g))))%float
  ∧ timeLeft (round g) ≤ timeLeft (round (finishSelection g)).
Proof.
  intros Hdraw Hlen. unfold finishSelection. rewrite Hdraw. cbn [negb].
  rewrite bool_decide_eq_true_2 by lia. cbn [round commit score timeLeft].
  split; [done|]. case_bool_decide; lia.
Qed.

Lemma triple_drag (g : Game) (q p r : Pos) :
  0 < timeLeft (round g) →
  linked (board g) p q → linked (board g) p r → q ≠ r →
  let g' := fold_left handleEnter [p; r] (startSelection g q) in
  selectedPath (sel g') = [q; p; r]
  ∧ isDrawing (sel g') = true
  ∧ turnCount (sel g') = direction_changes [q; p; r]
  ∧ board g' = board g ∧ round g' = round g.
Proof.
  intros Ht Hq Hr Hne.
  assert (p ≠ q ∧ p ≠ r) as [Hpq Hpr].
  { destruct Hq as (_ & _ & Hq & _), Hr as (_ & _ & Hr & _).
    unfold adjacent in *. split; intros ->; lia. }
  cbn zeta. cbn [fold_left].
  set (g0 := startSelection g q).
  assert (selectedPath (sel g0) = [q] ∧ (lastRow (sel g0), lastCol (sel g0)) = q
          ∧ board g0 = board g ∧ round g0 = round g
          ∧ detached (sel g0) = 0%nat) as (Hp0 & Hl0 & Hb0 & Hr0 & Hd0).
  { subst g0. unfold startSelection. rewrite bool_decide_eq_false_2 by lia.
    by destruct q. }
  pose proof (startSelection_selecting g q Ht) as Hs0.
  pose proof (startSelection_consistent g q Ht) as Hc0. fold g0 in Hs0, Hc0.
  assert (∀ s, s ∈ selectedPath (sel g0) →
            cell_at (board g0) s.1 s.2 = currentColour (sel g0)) as Hcol0
    by by destruct Hs0 as (_ & _ & _ & _ & ?).
  destruct (handleEnter_append_facts g0 p Hs0 Hc0) as (Hp1 & Hl1 & _ & _ & _ & Hb1 & Hr1).
  { rewrite <- (Hcol0 q) by (rewrite Hp0; apply list_elem_of_here).
    rewrite Hb0. by destruct Hq as (_ & _ & _ & ?). }
  { rewrite Hp0. intros H. by apply list_elem_of_singleton in H. }
  { rewrite Hl0. by destruct Hq as (_ & _ & ? & _). }
  set (g1 := handleEnter g0 p) in *.
  pose proof (handleEnter_selecting g0 p Hs0 Hd0) as Hs1.
  pose proof (handleEnter_detached g0 p) as Hd1. rewrite Hd0 in Hd1.
  pose proof (handleEnter_consistent g0 p Hc0) as Hc1. fold g1 in Hs1, Hc1, Hd1.
  assert (∀ s, s ∈ selectedPath (sel g1) →
            cell_at (board g1) s.1 s.2 = currentColour (sel g1)) as Hcol1
    by by destruct Hs1 as (_ & _ & _ & _ & ?).
  destruct (handleEnter_append_facts g1 r Hs1 Hc1)
    as (Hp2 & _ & _ & _ & Hturn & Hb2 & Hr2).
  { rewrite <- (Hcol1 p) by (rewrite Hp1, Hp0; by repeat constructor).
    rewrite Hb1, Hb0. destruct Hr as (_ & _ & _ & ?). done. }
  { rewrite Hp1, Hp0. intros H. apply elem_of_cons in H as [->|H]; [done|].
    apply list_elem_of_singleton in H. congruence. }
  { rewrite Hl1. destruct Hr as (_ & _ & ? & _). by apply adjacent_sym. }
  set (g2 := handleEnter g1 r) in *.
  rewrite Hp1, Hp0 in Hp2, Hturn. cbn [app] in Hp2, Hturn.
  pose proof (handleEnter_selecting g1 r Hs1 Hd1) as (Hdraw2 & _). fold g2 in Hdraw2.
  split; [done|]. split; [done|]. split; [done|].
  split; [by rewrite Hb2, Hb1|by rewrite Hr2, Hr1].
Qed.

Lemma board_ext (b1 b2 : Board) :
  grid6 b1 → grid6 b2 →
  (∀ p, inb p → cell_at b1 p.1 p.2 = cell_at b2 p.1 p.2) → b1 = b2.
Proof.
  intros H1 H2 Hcells. apply grid6_ext; [done..|].
  intros c Hc. unfold column. apply list_fmap_ext. intros i r Hr.
  apply lookup_seqZ in Hr as [-> Hi].
  apply (Hcells (0 + Z.of_nat i, c)). split; simpl; [lia|done].
Qed.

(** The cells emptied by a commit stay selectable until the refill timeout
    runs: startSelection and handleEnter compare contents only, so the same
    three cells, now Empty, can be dragged over and released again.  The
    second release commits too: it leaves the board as it is, schedules a
    second refill and adds the same gain to the score a second time. *)
Theorem emptied_cells_commit_again (g : Game) (q p r : Pos) :
  0 < timeLeft (round g) → grid6 (board g) →
  linked (board g) p q → linked (board g) p r → q ≠ r →
  let drag := λ g0,
    finishSelection (fold_left handleEnter [p; r] (startSelection g0 q)) in
  let gain := calculateScore (Z2F 3) (Z2F (direction_changes [q; p; r]))
                             (Z2F (chainCount (round g))) in
  (∀ s, s ∈ [q; p; r] → cell_at (board (drag g)) s.1 s.2 = Empty)
  ∧ board (drag (drag g)) = board (drag g)
  ∧ pendingRefills (round (drag (drag g))) = S (S (pendingRefills (round g)))
  ∧ score (round (drag (drag g))) = (score (round g) + gain + gain)%float.
Proof.
  intros Ht Hgrid Hq Hr Hne drag gain.
  assert (Forall inb [q; p; r]) as Hin.
  { destruct Hq as (? & ? & _), Hr as (_ & ? & _). by repeat apply Forall_cons_2. }
  assert (∀ g0, 0 < timeLeft (round g0) →
            linked (board g0) p q → linked (board g0) p r →
            board (drag g0) = clear_cells (board g0) [q; p; r]
            ∧ pendingRefills (round (drag g0)) = S (pendingRefills (round g0))
            ∧ chainCount (round (drag g0)) = chainCount (round g0)
            ∧ score (round (drag g0))
              = (score (round g0)
                 + calculateScore (Z2F 3) (Z2F (direction_changes [q; p; r]))
                                  (Z2F (chainCount (round g0))))%float
            ∧ 0 < timeLeft (round (drag g0))) as Hdrag.
  { intros g0 Ht0 Hq0 Hr0. subst drag. cbn beta.
    destruct (triple_drag g0 q p r Ht0 Hq0 Hr0 Hne) as (Hp & Hd & Hturn & Hb & Hrd).
    generalize dependent (fold_left handleEnter [p; r] (startSelection g0 q)).
    intros g' Hp Hd Hturn Hb Hrd.
    destruct (finishSelection_commit_facts g' Hd) as (Hb' & Hpend & Hchain);
      [rewrite Hp; simpl; lia|].
    destruct (finishSelection_commit_round g' Hd) as (Hscore & Htime);
      [rewrite Hp; simpl; lia|].
    rewrite Hb', Hpend, Hchain, Hscore, Hp, Hturn, Hb, Hrd.
    repeat split; try done. rewrite Hrd in Htime. lia. }
  destruct (Hdrag g Ht Hq Hr) as (Hb1 & Hp1 & Hc1 & Hs1 & Ht1).
  destruct (clear_cells_spec [q; p; r] (board g) Hgrid Hin) as (Hgrid1 & Hempty & _).
  rewrite <- Hb1 in Hgrid1, Hempty.
  assert (linked (board (drag g)) p q ∧ linked (board (drag g)) p r) as [Hq1 Hr1].
  { destruct Hq as (Hpi & Hqi & Hpq & _), Hr as (_ & Hri & Hpr & _).
    split; (split; [done|]; split; [done|]; split; [done|]);
      rewrite !Hempty; try done; by repeat constructor. }
  destruct (Hdrag (drag g) Ht1 Hq1 Hr1) as (Hb2 & Hp2 & Hc2 & Hs2 & _).
  split; [exact Hempty|]. split; [|split].
  - destruct (clear_cells_spec [q; p; r] (board (drag g)) Hgrid1 Hin)
      as (Hgrid2 & Hempty2 & Hother2).
    rewrite Hb2. apply board_ext; [done..|]. intros s _.
    destruct (decide (s ∈ [q; p; r])) as [Hs|Hs].
    + by rewrite Hempty2, Hempty.
    + by apply Hother2.
  - by rewrite Hp2, Hp1.
  - rewrite Hs2, Hs1, Hc1. done.
Qed.

Lemma emptied_cells_commit_again_witness :
  let drag := λ g0,
    finishSelection (fold_left handleEnter [(0, 1); (0, 2)] (startSelection g0 (0, 0))) in
  pendingRefills (round (drag (drag (fresh_game (uniform_grid red))))) = 2%nat.
Proof.
  intros drag.
  destruct (emptied_cells_commit_again (fresh_game (uniform_grid red))
              (0, 0) (0, 1) (0, 2)) as (_ & _ & Hpend & _).
  - reflexivity.
  - split; [reflexivity|]. repeat constructor.
  - unfold linked, inb, adjacent, ROWS, COLS. cbn. repeat split; lia.
  - unfold linked, inb, adjacent, ROWS, COLS. cbn. repeat split; lia.
  - discriminate.
  - exact Hpend.
Defined.
